(** * SubchannelStreamClient: the watch-stream controller and its CallState

    A shallow embedding of
    [src/core/ext/filters/client_channel/subchannel_stream_client.cc].

    The controller ([SubchannelStreamClient]) and the per-attempt protocol
    driver ([CallState]) are C++ objects mutated in place under the
    controller's mutex and the per-call combiner.  They are modelled by
    explicit state passing over one record that holds the controller's
    fields, the CallState objects it has allocated (addressed by their
    allocation index, which stands for the [this] pointer) and a log of the
    calls made into the collaborators (event handler, timer, reference
    counts, call combiner, transport).  The log is kept most recent first. *)

From stdpp Require Import base numbers option list.

Set Default Proof Using "Type".
Open Scope Z_scope.

(** ** Collaborator types *)

(** Modelled from the spec: [grpc/status.h] is not among the sources; the
    status code is a C enum, kept as an integer, with the public numbering
    of the codes this file names. *)
Definition grpc_status_code := Z.
Definition GRPC_STATUS_OK : grpc_status_code := 0.
Definition GRPC_STATUS_CANCELLED : grpc_status_code := 1.
Definition GRPC_STATUS_UNKNOWN : grpc_status_code := 2.
Definition GRPC_STATUS_UNIMPLEMENTED : grpc_status_code := 12.
Definition GRPC_STATUS_UNAVAILABLE : grpc_status_code := 14.

(** A non-null error.  [grpc_error_handle] is an error or [GRPC_ERROR_NONE]. *)
Inductive grpc_error :=
  | ERROR_CANCELLED
  | ERROR_WITH_STATUS (code : grpc_status_code).

Definition grpc_error_handle := option grpc_error.
Definition GRPC_ERROR_NONE : grpc_error_handle := None.
Definition GRPC_ERROR_CANCELLED : grpc_error_handle := Some ERROR_CANCELLED.

(** Modelled from the spec: [error_utils.cc] is not among the sources.
    "translating a delivered transport error into a status": the status
    out-parameter is overwritten with the code the error carries. *)
Definition grpc_error_get_status (error : grpc_error) : grpc_status_code :=
  match error with
  | ERROR_CANCELLED => GRPC_STATUS_CANCELLED
  | ERROR_WITH_STATUS code => code
  end.

(** [absl::Status] as returned by the handler's decode function. *)
Inductive absl_Status :=
  | OkStatus
  | ErrorStatus (code : grpc_status_code).

Definition ok (st : absl_Status) : bool :=
  match st with OkStatus => true | ErrorStatus _ => false end.

Definition grpc_slice := list Byte.byte.

(** [grpc_slice_buffer]: the slices with the two counters the code reads. *)
Module SliceBuffer.

Record t := mk {
  slices : list grpc_slice;
  count : nat;
  length : nat;
}.

Definition init : t := {| slices := []; count := 0; length := 0 |}.

Definition add (sb : t) (slice : grpc_slice) : t :=
  {| slices := slices sb ++ [slice];
     count := S (count sb);
     length := (length sb + List.length slice)%nat |}.

Definition destroy (sb : t) : t := init.

End SliceBuffer.

(** The inbound [ByteStream]: its announced length and the chunks it will
    hand out.  [available] says whether [Next] finds the chunk at once or
    suspends until the chunk-ready closure fires; [pull] is what [Pull]
    returns for it. *)
Record Chunk := {
  available : bool;
  pull : grpc_error + grpc_slice;
}.

Record ByteStream := {
  bs_length : nat;
  bs_chunks : list Chunk;
}.

(** Only the status entry of a metadata batch is read. *)
Record grpc_metadata_batch := {
  GrpcStatusMetadata : option grpc_status_code;
}.

Definition metadata_Clear (md : grpc_metadata_batch) : grpc_metadata_batch :=
  {| GrpcStatusMetadata := None |}.

(** The caller-supplied handler; only the decode function returns a value
    the code branches on. *)
Record CallEventHandler := {
  RecvMessageReadyLocked : list Byte.byte → absl_Status;
}.

(** The connected transport: for the n-th call created on it, the error
    [SubchannelCall::Create] reports. *)
Record ConnectedSubchannel := {
  create_error : nat → grpc_error_handle;
}.

(** Modelled from the spec: [backoff.cc] is not among the sources.
    "delay = min(cap, initial * multiplier^attempts) ... reset() restores
    attempts to zero"; the jitter is left out.  Delays are milliseconds. *)
Record BackOff := { attempts : nat }.

Definition SUBCHANNEL_STREAM_INITIAL_CONNECT_BACKOFF_SECONDS := 1.
Definition SUBCHANNEL_STREAM_RECONNECT_MAX_BACKOFF_SECONDS := 120.
(** 1.6, as numerator and denominator *)
Definition SUBCHANNEL_STREAM_RECONNECT_BACKOFF_MULTIPLIER := (8, 5).

Definition BackOff_initial : BackOff := {| attempts := 0 |}.
Definition BackOff_Reset (b : BackOff) : BackOff := BackOff_initial.
Definition BackOff_NextAttemptTime (b : BackOff) : Z * BackOff :=
  let n := Z.of_nat (attempts b) in
  let '(num, den) := SUBCHANNEL_STREAM_RECONNECT_BACKOFF_MULTIPLIER in
  (Z.min (SUBCHANNEL_STREAM_RECONNECT_MAX_BACKOFF_SECONDS * 1000)
         (SUBCHANNEL_STREAM_INITIAL_CONNECT_BACKOFF_SECONDS * 1000 * num ^ n
          / den ^ n),
   {| attempts := S (attempts b) |}).

(** ** The log of calls into the collaborators *)

(** The reasons given to [Ref]/[Unref]; [call_state_ref] stands for the
    untagged [Ref()] handed to a new CallState. *)
Inductive DebugTag :=
  | orphan | health_retry_timer | call_state_ref
  | on_complete | recv_initial_metadata_ready | recv_message_ready
  | recv_trailing_metadata_ready | cancel | call_ended
  | health_cancel | start_subchannel_batch.

Inductive Batch := batch_ | recv_trailing_metadata_batch_ | recv_message_batch_.

Inductive Closure :=
  | StartCancelClosure
  | StartBatchInCallCombiner (batch : Batch).

Inductive Effect :=
  (* the event handler *)
  | EvOnCallStartLocked
  | EvOnRetryTimerStartLocked
  | EvGetPathLocked
  | EvEncodeSendMessageLocked
  | EvRecvMessageReadyLocked (serialized_message : list Byte.byte)
                             (status : absl_Status)
  | EvRecvTrailingMetadataReadyLocked (status : grpc_status_code)
  (* the controller's reference count *)
  | EvRef (reason : DebugTag)
  | EvUnref (reason : DebugTag)
  (* the timer *)
  | EvTimerInit (next_try : Z)
  | EvTimerCancel
  (* the transport call of a CallState and its combiner *)
  | EvCreate (call : nat) (error : grpc_error_handle)
  | EvCallRef (call : nat) (reason : DebugTag)
  | EvCallUnref (call : nat) (reason : DebugTag)
  | EvCombinerCancel (call : nat)
  | EvCombinerStart (call : nat) (closure : Closure) (reason : DebugTag)
  | EvCombinerStop (call : nat) (reason : DebugTag)
  | EvStartTransportStreamOpBatch (call : nat) (batch : Batch)
  | EvCancelStream (call : nat).

(** ** The objects *)

Record CallState := {
  cancelled_ : bool;
  seen_response_ : bool;
  recv_message_ : option ByteStream;
  recv_message_buffer_ : SliceBuffer.t;
  recv_trailing_metadata_ : grpc_metadata_batch;
}.

Definition CallState_new : CallState :=
  {| cancelled_ := false;
     seen_response_ := false;
     recv_message_ := None;
     recv_message_buffer_ := SliceBuffer.init;
     recv_trailing_metadata_ := {| GrpcStatusMetadata := None |} |}.

Record SubchannelStreamClient := {
  connected_subchannel_ : ConnectedSubchannel;
  event_handler_ : option CallEventHandler;
  (** [OrphanablePtr<CallState>]: the address of the active CallState *)
  call_state_ : option nat;
  retry_backoff_ : BackOff;
  retry_timer_callback_pending_ : bool;
  (** every CallState allocated so far, by allocation index *)
  heap : list CallState;
  log : list Effect;
}.

(** Field updates. *)
Definition set_cancelled_ (b : bool) (cs : CallState) : CallState :=
  {| cancelled_ := b; seen_response_ := seen_response_ cs;
     recv_message_ := recv_message_ cs;
     recv_message_buffer_ := recv_message_buffer_ cs;
     recv_trailing_metadata_ := recv_trailing_metadata_ cs |}.
Definition set_seen_response_ (b : bool) (cs : CallState) : CallState :=
  {| cancelled_ := cancelled_ cs; seen_response_ := b;
     recv_message_ := recv_message_ cs;
     recv_message_buffer_ := recv_message_buffer_ cs;
     recv_trailing_metadata_ := recv_trailing_metadata_ cs |}.
Definition set_recv_message_ (m : option ByteStream) (cs : CallState) : CallState :=
  {| cancelled_ := cancelled_ cs; seen_response_ := seen_response_ cs;
     recv_message_ := m;
     recv_message_buffer_ := recv_message_buffer_ cs;
     recv_trailing_metadata_ := recv_trailing_metadata_ cs |}.
Definition set_recv_message_buffer_ (sb : SliceBuffer.t) (cs : CallState) : CallState :=
  {| cancelled_ := cancelled_ cs; seen_response_ := seen_response_ cs;
     recv_message_ := recv_message_ cs;
     recv_message_buffer_ := sb;
     recv_trailing_metadata_ := recv_trailing_metadata_ cs |}.
Definition set_recv_trailing_metadata_ (md : grpc_metadata_batch) (cs : CallState) : CallState :=
  {| cancelled_ := cancelled_ cs; seen_response_ := seen_response_ cs;
     recv_message_ := recv_message_ cs;
     recv_message_buffer_ := recv_message_buffer_ cs;
     recv_trailing_metadata_ := md |}.

Definition set_event_handler_ (h : option CallEventHandler) (s : SubchannelStreamClient) :=
  {| connected_subchannel_ := connected_subchannel_ s; event_handler_ := h;
     call_state_ := call_state_ s; retry_backoff_ := retry_backoff_ s;
     retry_timer_callback_pending_ := retry_timer_callback_pending_ s;
     heap := heap s; log := log s |}.
Definition set_call_state_ (c : option nat) (s : SubchannelStreamClient) :=
  {| connected_subchannel_ := connected_subchannel_ s;
     event_handler_ := event_handler_ s;
     call_state_ := c; retry_backoff_ := retry_backoff_ s;
     retry_timer_callback_pending_ := retry_timer_callback_pending_ s;
     heap := heap s; log := log s |}.
Definition set_retry_backoff_ (b : BackOff) (s : SubchannelStreamClient) :=
  {| connected_subchannel_ := connected_subchannel_ s;
     event_handler_ := event_handler_ s;
     call_state_ := call_state_ s; retry_backoff_ := b;
     retry_timer_callback_pending_ := retry_timer_callback_pending_ s;
     heap := heap s; log := log s |}.
Definition set_retry_timer_callback_pending_ (b : bool) (s : SubchannelStreamClient) :=
  {| connected_subchannel_ := connected_subchannel_ s;
     event_handler_ := event_handler_ s;
     call_state_ := call_state_ s; retry_backoff_ := retry_backoff_ s;
     retry_timer_callback_pending_ := b;
     heap := heap s; log := log s |}.
Definition set_heap (h : list CallState) (s : SubchannelStreamClient) :=
  {| connected_subchannel_ := connected_subchannel_ s;
     event_handler_ := event_handler_ s;
     call_state_ := call_state_ s; retry_backoff_ := retry_backoff_ s;
     retry_timer_callback_pending_ := retry_timer_callback_pending_ s;
     heap := h; log := log s |}.
Definition set_log (l : list Effect) (s : SubchannelStreamClient) :=
  {| connected_subchannel_ := connected_subchannel_ s;
     event_handler_ := event_handler_ s;
     call_state_ := call_state_ s; retry_backoff_ := retry_backoff_ s;
     retry_timer_callback_pending_ := retry_timer_callback_pending_ s;
     heap := heap s; log := l |}.

(** Record a call into a collaborator. *)
Definition emit (e : Effect) (s : SubchannelStreamClient) : SubchannelStreamClient :=
  set_log (e :: log s) s.

(** [self->field = ...] on the CallState at address [self]. *)
Definition update_call (self : nat) (f : CallState → CallState)
    (s : SubchannelStreamClient) : SubchannelStreamClient :=
  set_heap (alter f self (heap s)) s.

(** Reading a field of the CallState at [self].  Callbacks only run on
    allocated CallStates (see [enabled]); elsewhere the fresh object is
    read. *)
Definition call_at (self : nat) (s : SubchannelStreamClient) : CallState :=
  default CallState_new (heap s !! self).

(** ** Results of the operations that can fail *)

(** [AssertFailed]: a [GPR_ASSERT] did not hold (the process aborts).
    [OutOfFuel]: the bound on the depth of the mutual recursion between the
    controller and the CallState was reached. *)
Inductive Outcome (A : Type) :=
  | Ok (a : A)
  | AssertFailed
  | OutOfFuel.
Arguments Ok {A} a.
Arguments AssertFailed {A}.
Arguments OutOfFuel {A}.

Global Instance Outcome_ret : MRet Outcome := @Ok.
Global Instance Outcome_bind : MBind Outcome := λ A B f m,
  match m with
  | Ok a => f a
  | AssertFailed => AssertFailed
  | OutOfFuel => OutOfFuel
  end.

(** ** CallState: cancellation *)

(** [CallState::Cancel]: the compare-exchange on [cancelled_] lets only the
    first caller schedule the cancel operation. *)
Definition Cancel (self : nat) (s : SubchannelStreamClient) : SubchannelStreamClient :=
  if cancelled_ (call_at self s) then s
  else
    let s := update_call self (set_cancelled_ true) s in
    let s := emit (EvCallRef self cancel) s in
    emit (EvCombinerStart self StartCancelClosure health_cancel) s.

(** [CallState::Orphan] *)
Definition CallState_Orphan (self : nat) (s : SubchannelStreamClient) : SubchannelStreamClient :=
  let s := emit (EvCombinerCancel self) s in
  Cancel self s.

(** [call_state_.reset()]: an [OrphanablePtr] orphans the object it held. *)
Definition call_state_reset (s : SubchannelStreamClient) : SubchannelStreamClient :=
  match call_state_ s with
  | Some old => CallState_Orphan old (set_call_state_ None s)
  | None => s
  end.

(** [CallState::StartCancel], run by the call combiner. *)
Definition StartCancel (self : nat) (s : SubchannelStreamClient) : SubchannelStreamClient :=
  emit (EvCancelStream self) s.

(** [CallState::OnCancelComplete] *)
Definition OnCancelComplete (self : nat) (s : SubchannelStreamClient) : SubchannelStreamClient :=
  let s := emit (EvCombinerStop self health_cancel) s in
  emit (EvCallUnref self cancel) s.

(** [CallState::StartBatch] and the closure it schedules. *)
Definition StartBatch (self : nat) (batch : Batch) (s : SubchannelStreamClient) : SubchannelStreamClient :=
  emit (EvCombinerStart self (StartBatchInCallCombiner batch) start_subchannel_batch) s.

Definition RunStartBatchInCallCombiner (self : nat) (batch : Batch)
    (s : SubchannelStreamClient) : SubchannelStreamClient :=
  emit (EvStartTransportStreamOpBatch self batch) s.

(** ** The controller: retry timer *)

(** [SubchannelStreamClient::StartRetryTimerLocked] *)
Definition StartRetryTimerLocked (s : SubchannelStreamClient) : SubchannelStreamClient :=
  let s := match event_handler_ s with
           | Some _ => emit EvOnRetryTimerStartLocked s
           | None => s
           end in
  let '(next_try, backoff) := BackOff_NextAttemptTime (retry_backoff_ s) in
  let s := set_retry_backoff_ backoff s in
  let s := emit (EvRef health_retry_timer) s in
  let s := set_retry_timer_callback_pending_ true s in
  emit (EvTimerInit next_try) s.

(** ** Starting and ending an attempt

    [SubchannelStreamClient::StartCallLocked] calls
    [CallState::StartCallLocked], which on a creation failure calls
    [CallState::CallEndedLocked], which may call
    [SubchannelStreamClient::StartCallLocked] again.  The three are defined
    together, every call spending one unit of [fuel].  Of the batch set-up
    in [CallState::StartCallLocked] the calls into the handler, the
    references taken and the two batches started are kept; trace logging is
    left out everywhere. *)
Fixpoint StartCallLocked (fuel : nat) (s : SubchannelStreamClient)
    {struct fuel} : Outcome SubchannelStreamClient :=
  match fuel with
  | O => OutOfFuel
  | S fuel =>
    match event_handler_ s with
    | None => Ok s
    | Some _ =>
      match call_state_ s with
      | Some _ => AssertFailed        (* GPR_ASSERT(call_state_ == nullptr) *)
      | None =>
        let s := emit EvOnCallStartLocked s in
        let s := emit (EvRef call_state_ref) s in
        let self := length (heap s) in
        let s := set_heap (heap s ++ [CallState_new]) s in
        let s := set_call_state_ (Some self) s in
        CallState_StartCallLocked fuel self s
      end
    end
  end

with CallState_StartCallLocked (fuel : nat) (self : nat) (s : SubchannelStreamClient)
    {struct fuel} : Outcome SubchannelStreamClient :=
  match fuel with
  | O => OutOfFuel
  | S fuel =>
    let error := create_error (connected_subchannel_ s) self in
    let s := emit (EvCreate self error) s in
    (* Check if creation failed. *)
    if bool_decide (error ≠ GRPC_ERROR_NONE) || bool_decide (event_handler_ s = None)
    then CallEndedLocked fuel self true s
    else
      (* Initialize payload and batch. *)
      let s := emit (EvCallRef self on_complete) s in
      let s := emit EvGetPathLocked s in
      let s := emit EvEncodeSendMessageLocked s in
      let s := emit (EvCallRef self recv_initial_metadata_ready) s in
      let s := emit (EvCallRef self recv_message_ready) s in
      let s := StartBatch self batch_ s in
      let s := StartBatch self recv_trailing_metadata_batch_ s in
      Ok s
  end

with CallEndedLocked (fuel : nat) (self : nat) (retry : bool) (s : SubchannelStreamClient)
    {struct fuel} : Outcome SubchannelStreamClient :=
  match fuel with
  | O => OutOfFuel
  | S fuel =>
    s ← (if bool_decide (call_state_ s = Some self) then
           let s := call_state_reset s in
           if retry then
             match event_handler_ s with
             | None => AssertFailed   (* GPR_ASSERT(event_handler_ != nullptr) *)
             | Some _ =>
               if seen_response_ (call_at self s) then
                 let s := set_retry_backoff_ (BackOff_Reset (retry_backoff_ s)) s in
                 StartCallLocked fuel s
               else Ok (StartRetryTimerLocked s)
             end
           else Ok s
         else Ok s);
    Ok (emit (EvCallUnref self call_ended) s)
  end.

(** Depth of the deepest chain: [CallEndedLocked], [StartCallLocked],
    [CallState_StartCallLocked], [CallEndedLocked] on the fresh CallState,
    which has seen no response and so arms the timer. *)
Definition call_depth : nat := 4.

(** [SubchannelStreamClient::StartCall] *)
Definition StartCall (s : SubchannelStreamClient) : Outcome SubchannelStreamClient :=
  StartCallLocked call_depth s.

(** The constructor: the initial reference belongs to the owner. *)
Definition member_initializers (connected_subchannel : ConnectedSubchannel)
    (event_handler : option CallEventHandler) : SubchannelStreamClient :=
  {| connected_subchannel_ := connected_subchannel;
     event_handler_ := event_handler;
     call_state_ := None;
     retry_backoff_ := BackOff_initial;
     retry_timer_callback_pending_ := false;
     heap := [];
     log := [] |}.

Definition SubchannelStreamClient_new (connected_subchannel : ConnectedSubchannel)
    (event_handler : option CallEventHandler) : Outcome SubchannelStreamClient :=
  StartCall (member_initializers connected_subchannel event_handler).

(** [SubchannelStreamClient::Orphan] *)
Definition Orphan (s : SubchannelStreamClient) : SubchannelStreamClient :=
  let s := set_event_handler_ None s in
  let s := call_state_reset s in
  let s := if retry_timer_callback_pending_ s then emit EvTimerCancel s else s in
  emit (EvUnref orphan) s.

(** [SubchannelStreamClient::OnRetryTimer] *)
Definition OnRetryTimer (error : grpc_error_handle) (s : SubchannelStreamClient)
    : Outcome SubchannelStreamClient :=
  let s := set_retry_timer_callback_pending_ false s in
  s ← (if bool_decide (event_handler_ s ≠ None) && bool_decide (error = GRPC_ERROR_NONE)
          && bool_decide (call_state_ s = None)
       then StartCallLocked call_depth s
       else Ok s);
  Ok (emit (EvUnref health_retry_timer) s).

(** ** CallState: completions of the first batch *)

(** [CallState::OnComplete] *)
Definition OnComplete (self : nat) (s : SubchannelStreamClient) : SubchannelStreamClient :=
  let s := emit (EvCombinerStop self on_complete) s in
  emit (EvCallUnref self on_complete) s.

(** [CallState::RecvInitialMetadataReady] *)
Definition RecvInitialMetadataReady (self : nat) (s : SubchannelStreamClient) : SubchannelStreamClient :=
  let s := emit (EvCombinerStop self recv_initial_metadata_ready) s in
  emit (EvCallUnref self recv_initial_metadata_ready) s.

(** ** CallState: the message-receive loop *)

(** Modelled from the spec: [byte_stream.h] is not among the sources.
    "pull successive chunks of an inbound message": [Next] answers whether
    a chunk can be pulled now, [Pull] hands out the next chunk or an error;
    pulling from a stream with nothing left is an error. *)
Definition ByteStream_Next (bs : ByteStream) : bool :=
  match bs_chunks bs with
  | c :: _ => available c
  | [] => false
  end.

Definition ByteStream_Pull (bs : ByteStream) : (grpc_error + grpc_slice) * ByteStream :=
  match bs_chunks bs with
  | c :: rest => (pull c, {| bs_length := bs_length bs; bs_chunks := rest |})
  | [] => (inl (ERROR_WITH_STATUS GRPC_STATUS_UNKNOWN), bs)
  end.

(** [memcpy(dst + offset, src, n)] on a buffer held as a list of bytes. *)
Definition memcpy (dst : list Byte.byte) (offset : nat) (src : list Byte.byte) (n : nat)
    : list Byte.byte :=
  take offset dst ++ take n src ++ drop (offset + n) dst.

(** [gpr_malloc(n)]: [n] bytes of unspecified content. *)
Definition gpr_malloc (n : nat) : list Byte.byte := replicate n Byte.x00.

(** The [for] loop of [DoneReadingRecvMessage]: copy slice after slice,
    advancing [offset]. *)
Fixpoint copy_slices (slices : list grpc_slice) (recv_message : list Byte.byte)
    (offset : nat) : list Byte.byte :=
  match slices with
  | [] => recv_message
  | slice :: slices =>
      copy_slices slices (memcpy recv_message offset slice (length slice))
                  (offset + length slice)
  end.

(** "Concatenate the slices to form a single string": the memory
    [recv_message] points to, then the [string_view] of
    [recv_message_buffer_.length] bytes taken from it. *)
Definition concatenate_slices (sb : SliceBuffer.t) : list Byte.byte :=
  if bool_decide (SliceBuffer.count sb = 1%nat)
  then default [] (SliceBuffer.slices sb !! 0%nat)
  else copy_slices (take (SliceBuffer.count sb) (SliceBuffer.slices sb))
                   (gpr_malloc (SliceBuffer.length sb)) 0.

Definition serialized_message (sb : SliceBuffer.t) : list Byte.byte :=
  take (SliceBuffer.length sb) (concatenate_slices sb).

(** [CallState::DoneReadingRecvMessage] *)
Definition DoneReadingRecvMessage (self : nat) (error : grpc_error_handle)
    (s : SubchannelStreamClient) : SubchannelStreamClient :=
  let s := update_call self (set_recv_message_ None) s in
  match error with
  | Some _ =>
    let s := Cancel self s in
    let s := update_call self (λ cs,
               set_recv_message_buffer_ (SliceBuffer.destroy (recv_message_buffer_ cs)) cs) s in
    emit (EvCallUnref self recv_message_ready) s
  | None =>
    (* Concatenate the slices to form a single string. *)
    let message := serialized_message (recv_message_buffer_ (call_at self s)) in
    (* Report payload. *)
    let s := match event_handler_ s with
             | Some h =>
               let status := RecvMessageReadyLocked h message in
               let s := emit (EvRecvMessageReadyLocked message status) s in
               if ok status then s else Cancel self s
             | None => s
             end in
    let s := update_call self (set_seen_response_ true) s in
    let s := update_call self (λ cs,
               set_recv_message_buffer_ (SliceBuffer.destroy (recv_message_buffer_ cs)) cs) s in
    (* Start another recv_message batch. *)
    StartBatch self recv_message_batch_ s
  end.

(** [CallState::PullSliceFromRecvMessage].  Without a stream there is
    nothing to pull from; [enabled] keeps the callers away from that case. *)
Definition PullSliceFromRecvMessage (self : nat) (s : SubchannelStreamClient)
    : grpc_error_handle * SubchannelStreamClient :=
  match recv_message_ (call_at self s) with
  | None => (Some (ERROR_WITH_STATUS GRPC_STATUS_UNKNOWN), s)
  | Some bs =>
    let '(result, bs) := ByteStream_Pull bs in
    let s := update_call self (set_recv_message_ (Some bs)) s in
    match result with
    | inl error => (Some error, s)
    | inr slice =>
      (GRPC_ERROR_NONE,
       update_call self (λ cs,
         set_recv_message_buffer_ (SliceBuffer.add (recv_message_buffer_ cs) slice) cs) s)
    end
  end.

(** Whether the accumulated length has reached the announced one. *)
Definition message_complete (self : nat) (s : SubchannelStreamClient) : bool :=
  match recv_message_ (call_at self s) with
  | Some bs =>
    bool_decide (SliceBuffer.length (recv_message_buffer_ (call_at self s)) = bs_length bs)
  | None => false
  end.

(** The [while] loop of [CallState::ContinueReadingRecvMessage]; each turn
    consumes one chunk, [n] bounds the number of turns. *)
Fixpoint ContinueReadingRecvMessage_loop (n : nat) (self : nat) (s : SubchannelStreamClient)
    : SubchannelStreamClient :=
  match n with
  | O => s
  | S n =>
    match recv_message_ (call_at self s) with
    | None => s
    | Some bs =>
      if ByteStream_Next bs then
        let '(error, s) := PullSliceFromRecvMessage self s in
        match error with
        | Some _ => DoneReadingRecvMessage self error s
        | None =>
          if message_complete self s
          then DoneReadingRecvMessage self GRPC_ERROR_NONE s
          else ContinueReadingRecvMessage_loop n self s
        end
      else s
    end
  end.

(** [CallState::ContinueReadingRecvMessage]: the stream has finitely many
    chunks left, which bounds the loop. *)
Definition ContinueReadingRecvMessage (self : nat) (s : SubchannelStreamClient)
    : SubchannelStreamClient :=
  match recv_message_ (call_at self s) with
  | None => s
  | Some bs => ContinueReadingRecvMessage_loop (length (bs_chunks bs)) self s
  end.

(** [CallState::OnByteStreamNext] *)
Definition OnByteStreamNext (self : nat) (error : grpc_error_handle)
    (s : SubchannelStreamClient) : SubchannelStreamClient :=
  match error with
  | Some _ => DoneReadingRecvMessage self error s
  | None =>
    let '(error, s) := PullSliceFromRecvMessage self s in
    match error with
    | Some _ => DoneReadingRecvMessage self error s
    | None =>
      if message_complete self s
      then DoneReadingRecvMessage self GRPC_ERROR_NONE s
      else ContinueReadingRecvMessage self s
    end
  end.

(** [CallState::RecvMessageReady] *)
Definition RecvMessageReady (self : nat) (s : SubchannelStreamClient) : SubchannelStreamClient :=
  let s := emit (EvCombinerStop self recv_message_ready) s in
  match recv_message_ (call_at self s) with
  | None => emit (EvCallUnref self recv_message_ready) s
  | Some _ =>
    let s := update_call self (set_recv_message_buffer_ SliceBuffer.init) s in
    ContinueReadingRecvMessage self s
  end.

(** ** CallState: the end of the attempt *)

(** "Get call status": the first lines of [RecvTrailingMetadataReady]. *)
Definition get_call_status (recv_trailing_metadata : grpc_metadata_batch)
    (error : grpc_error_handle) : grpc_status_code :=
  let status := default GRPC_STATUS_UNKNOWN (GrpcStatusMetadata recv_trailing_metadata) in
  match error with
  | Some e => grpc_error_get_status e
  | None => status
  end.

(** [CallState::RecvTrailingMetadataReady] *)
Definition RecvTrailingMetadataReady (self : nat) (error : grpc_error_handle)
    (s : SubchannelStreamClient) : Outcome SubchannelStreamClient :=
  let s := emit (EvCombinerStop self recv_trailing_metadata_ready) s in
  (* Get call status. *)
  let status := get_call_status (recv_trailing_metadata_ (call_at self s)) error in
  (* Clean up. *)
  let s := update_call self (λ cs,
             set_recv_trailing_metadata_ (metadata_Clear (recv_trailing_metadata_ cs)) cs) s in
  (* Report call end. *)
  let s := match event_handler_ s with
           | Some _ => emit (EvRecvTrailingMetadataReadyLocked status) s
           | None => s
           end in
  (* For status UNIMPLEMENTED, give up and assume always healthy. *)
  CallEndedLocked call_depth self
    (bool_decide (status ≠ GRPC_STATUS_UNIMPLEMENTED)) s.

(** ** The environment

    What the owner, the timer and the transport can do to a controller:
    each event runs one entry point of the source, the transport first
    filling the field the completion reads. *)
Inductive Event :=
  | OwnerOrphans
  | TimerFires (error : grpc_error_handle)
  | BatchCompletes (self : nat)
  | InitialMetadataArrives (self : nat)
  | MessageArrives (self : nat) (recv_message : option ByteStream)
  | ChunkArrives (self : nat) (error : grpc_error_handle)
  | TrailingMetadataArrives (self : nat) (recv_trailing_metadata : grpc_metadata_batch)
                            (error : grpc_error_handle)
  | CombinerRuns (self : nat) (closure : Closure)
  | CancelCompletes (self : nat).

Definition run (ev : Event) (s : SubchannelStreamClient) : Outcome SubchannelStreamClient :=
  match ev with
  | OwnerOrphans => Ok (Orphan s)
  | TimerFires error => OnRetryTimer error s
  | BatchCompletes self => Ok (OnComplete self s)
  | InitialMetadataArrives self => Ok (RecvInitialMetadataReady self s)
  | MessageArrives self recv_message =>
      Ok (RecvMessageReady self (update_call self (set_recv_message_ recv_message) s))
  | ChunkArrives self error => Ok (OnByteStreamNext self error s)
  | TrailingMetadataArrives self recv_trailing_metadata error =>
      RecvTrailingMetadataReady self error
        (update_call self (set_recv_trailing_metadata_ recv_trailing_metadata) s)
  | CombinerRuns self StartCancelClosure => Ok (StartCancel self s)
  | CombinerRuns self (StartBatchInCallCombiner batch) =>
      Ok (RunStartBatchInCallCombiner self batch s)
  | CancelCompletes self => Ok (OnCancelComplete self s)
  end.

(** A completion is only delivered to a CallState that exists; a chunk is
    only announced on a CallState that is reading a message.  The owner's
    shutdown and the timer callback are not constrained: they may come at
    any time, the callback with or without an error. *)
Definition enabled (ev : Event) (s : SubchannelStreamClient) : bool :=
  match ev with
  | OwnerOrphans | TimerFires _ => true
  | BatchCompletes self | InitialMetadataArrives self | MessageArrives self _
  | TrailingMetadataArrives self _ _ | CombinerRuns self _ | CancelCompletes self =>
      bool_decide (is_Some (heap s !! self))
  | ChunkArrives self _ =>
      bool_decide (is_Some (heap s !! self)) &&
      bool_decide (is_Some (recv_message_ (call_at self s)))
  end.

(** Run a sequence of events, stopping at the first failure; an event that
    is not enabled does not happen. *)
Fixpoint exec (evs : list Event) (s : SubchannelStreamClient) : Outcome SubchannelStreamClient :=
  match evs with
  | [] => Ok s
  | ev :: evs => if enabled ev s then run ev s ≫= exec evs else exec evs s
  end.

(** The states a controller can be in: after construction, and after any
    enabled event that ran to its end. *)
Inductive reachable : SubchannelStreamClient → Prop :=
  | reachable_new connected_subchannel event_handler s :
      SubchannelStreamClient_new connected_subchannel event_handler = Ok s →
      reachable s
  | reachable_run s ev s' :
      reachable s → enabled ev s = true → run ev s = Ok s' → reachable s'.

(** ** Observations on the log *)

Definition is_call_start (e : Effect) : bool :=
  match e with EvOnCallStartLocked => true | _ => false end.
Definition is_timer_init (e : Effect) : bool :=
  match e with EvTimerInit _ => true | _ => false end.
Definition is_timer_ref (e : Effect) : bool :=
  match e with EvRef health_retry_timer => true | _ => false end.
Definition is_timer_unref (e : Effect) : bool :=
  match e with EvUnref health_retry_timer => true | _ => false end.
Definition is_orphan_unref (e : Effect) : bool :=
  match e with EvUnref orphan => true | _ => false end.

Definition occurrences (p : Effect → bool) (l : list Effect) : nat :=
  length (List.filter p l).

(** Attempts started ([OnCallStartLocked] notifications) and retry timers
    armed ([grpc_timer_init] calls) so far. *)
Definition calls_started (s : SubchannelStreamClient) : nat :=
  occurrences is_call_start (log s).
Definition timers_armed (s : SubchannelStreamClient) : nat :=
  occurrences is_timer_init (log s).

(** The terminal statuses and the messages handed to the handler, most
    recent first. *)
Fixpoint reported_statuses (l : list Effect) : list grpc_status_code :=
  match l with
  | [] => []
  | EvRecvTrailingMetadataReadyLocked status :: l => status :: reported_statuses l
  | _ :: l => reported_statuses l
  end.

Fixpoint delivered_messages (l : list Effect) : list (list Byte.byte) :=
  match l with
  | [] => []
  | EvRecvMessageReadyLocked message _ :: l => message :: delivered_messages l
  | _ :: l => delivered_messages l
  end.

(** The state right after an attempt was started on [s]: the new CallState
    is the active one when the transport created the call, and is already
    dropped again, with the retry timer armed, when it did not. *)
Definition attempt_created (s : SubchannelStreamClient) : SubchannelStreamClient :=
  let self := length (heap s) in
  set_call_state_ (Some self)
    (set_heap (heap s ++ [CallState_new])
       (emit (EvRef call_state_ref) (emit EvOnCallStartLocked s))).

Definition attempt_started (s : SubchannelStreamClient) : SubchannelStreamClient :=
  let self := length (heap s) in
  let error := create_error (connected_subchannel_ s) self in
  let s := emit (EvCreate self error) (attempt_created s) in
  match error with
  | None =>
      StartBatch self recv_trailing_metadata_batch_
        (StartBatch self batch_
           (emit (EvCallRef self recv_message_ready)
              (emit (EvCallRef self recv_initial_metadata_ready)
                 (emit EvEncodeSendMessageLocked
                    (emit EvGetPathLocked
                       (emit (EvCallRef self on_complete) s))))))
  | Some _ =>
      emit (EvCallUnref self call_ended)
        (StartRetryTimerLocked (call_state_reset s))
  end.

(** The state [CallEndedLocked] leaves when no assertion fails. *)
Definition attempt_ended (self : nat) (retry : bool) (s : SubchannelStreamClient)
    : SubchannelStreamClient :=
  emit (EvCallUnref self call_ended)
    (if bool_decide (call_state_ s = Some self) then
       let s := call_state_reset s in
       if retry then
         if seen_response_ (call_at self s)
         then attempt_started (set_retry_backoff_ (BackOff_Reset (retry_backoff_ s)) s)
         else StartRetryTimerLocked s
       else s
     else s).

(** ** Steps that stay inside a CallState

    The effects an operation of a CallState has on the collaborators when
    it does not call back into the controller. *)
Definition call_event (e : Effect) : bool :=
  match e with
  | EvRecvMessageReadyLocked _ _ | EvCallRef _ _ | EvCallUnref _ _
  | EvCombinerCancel _ | EvCombinerStart _ _ _ | EvCombinerStop _ _
  | EvStartTransportStreamOpBatch _ _ | EvCancelStream _ => true
  | _ => false
  end.

(** [s'] differs from [s] only inside CallStates and by [call_event]s. *)
Record call_step (s s' : SubchannelStreamClient) : Prop := {
  call_step_subchannel : connected_subchannel_ s' = connected_subchannel_ s;
  call_step_handler : event_handler_ s' = event_handler_ s;
  call_step_call_state : call_state_ s' = call_state_ s;
  call_step_backoff : retry_backoff_ s' = retry_backoff_ s;
  call_step_pending : retry_timer_callback_pending_ s' = retry_timer_callback_pending_ s;
  call_step_heap : length (heap s') = length (heap s);
  call_step_log : ∃ es, log s' = es ++ log s ∧ forallb call_event es = true;
}.

(** ** The invariant of the controller *)

Record invariant (s : SubchannelStreamClient) : Prop := {
  (** an active attempt excludes a pending retry timer *)
  inv_exclusive : is_Some (call_state_ s) → retry_timer_callback_pending_ s = false;
  (** an attempt is only active while the handler is there *)
  inv_handler : is_Some (call_state_ s) → is_Some (event_handler_ s);
  (** the active CallState is the one created last *)
  inv_newest : ∀ self, call_state_ s = Some self → length (heap s) = S self;
}.

(** The state in which [RecvTrailingMetadataReady] calls
    [CallEndedLocked]: metadata cleared, call end reported. *)
Definition call_end_reported (self : nat) (error : grpc_error_handle)
    (s : SubchannelStreamClient) : SubchannelStreamClient :=
  let status := get_call_status (recv_trailing_metadata_ (call_at self s)) error in
  let s := emit (EvCombinerStop self recv_trailing_metadata_ready) s in
  let s := update_call self (λ cs,
             set_recv_trailing_metadata_ (metadata_Clear (recv_trailing_metadata_ cs)) cs) s in
  match event_handler_ s with
  | Some _ => emit (EvRecvTrailingMetadataReadyLocked status) s
  | None => s
  end.

(** The slice buffer after [grpc_slice_buffer_init] and one
    [grpc_slice_buffer_add] per pulled slice, in the order pulled. *)
Definition pulled (slices : list grpc_slice) : SliceBuffer.t :=
  fold_left SliceBuffer.add slices SliceBuffer.init.


(** ** Concrete collaborators for the examples *)

(** A handler whose decode rejects the empty message. *)
Definition rejects_empty : CallEventHandler :=
  {| RecvMessageReadyLocked := λ message,
       match message with
       | [] => ErrorStatus GRPC_STATUS_UNKNOWN
       | _ => OkStatus
       end |}.

(** A transport on which every call is created, and one on which none is. *)
Definition subchannel_up : ConnectedSubchannel :=
  {| create_error := λ _, GRPC_ERROR_NONE |}.
Definition subchannel_down : ConnectedSubchannel :=
  {| create_error := λ _, Some (ERROR_WITH_STATUS GRPC_STATUS_UNAVAILABLE) |}.

(** A message whose chunks are all there when the read starts. *)
Definition message_of (chunks : list grpc_slice) : ByteStream :=
  {| bs_length := length (concat chunks);
     bs_chunks := (λ slice, {| available := true; pull := inr slice |}) <$> chunks |}.

(** The controller right after construction, with its first attempt
    active. *)
Definition watching : SubchannelStreamClient :=
  attempt_started (member_initializers subchannel_up (Some rejects_empty)).

(** The same after the first message was read and accepted. *)
Definition watching_seen : SubchannelStreamClient :=
  RecvMessageReady 0
    (update_call 0 (set_recv_message_ (Some (message_of [[Byte.x01; Byte.x02]; [Byte.x03]])))
       watching).

(** The controller waiting for its retry timer: the first call could not
    be created. *)
Definition backing_off : SubchannelStreamClient :=
  attempt_started (member_initializers subchannel_down (Some rejects_empty)).


(** The transport has filled in the trailing metadata of attempt 0: the
    peer rejects the method, or the connection was lost. *)
Definition rejected : SubchannelStreamClient :=
  update_call 0
    (set_recv_trailing_metadata_ {| GrpcStatusMetadata := Some GRPC_STATUS_UNIMPLEMENTED |})
    watching_seen.

Definition connection_lost : SubchannelStreamClient :=
  update_call 0
    (set_recv_trailing_metadata_ {| GrpcStatusMetadata := Some GRPC_STATUS_UNAVAILABLE |})
    watching_seen.

(** ** Further observations on the log *)

(** The cancel operation of one CallState: the closure scheduled on its
    combiner and the reference taken for it. *)
Definition is_cancel_start_of (id : nat) (e : Effect) : bool :=
  match e with
  | EvCombinerStart call StartCancelClosure _ => bool_decide (call = id)
  | _ => false
  end.
Definition is_cancel_ref_of (id : nat) (e : Effect) : bool :=
  match e with
  | EvCallRef call cancel => bool_decide (call = id)
  | _ => false
  end.

Definition cancels_scheduled (id : nat) (s : SubchannelStreamClient) : nat :=
  occurrences (is_cancel_start_of id) (log s).
Definition cancel_refs (id : nat) (s : SubchannelStreamClient) : nat :=
  occurrences (is_cancel_ref_of id) (log s).

(** The calls into the event handler. *)
Definition is_handler_call (e : Effect) : bool :=
  match e with
  | EvOnCallStartLocked | EvOnRetryTimerStartLocked | EvGetPathLocked
  | EvEncodeSendMessageLocked | EvRecvMessageReadyLocked _ _
  | EvRecvTrailingMetadataReadyLocked _ => true
  | _ => false
  end.
Definition handler_calls (s : SubchannelStreamClient) : nat :=
  occurrences is_handler_call (log s).

Definition is_call_state_ref (e : Effect) : bool :=
  match e with EvRef call_state_ref => true | _ => false end.
Definition is_create (e : Effect) : bool :=
  match e with EvCreate _ _ => true | _ => false end.
Definition is_timer_start_notification (e : Effect) : bool :=
  match e with EvOnRetryTimerStartLocked => true | _ => false end.

(** ** What every operation preserves

    [progress s s']: going from [s] to [s'], a handler that is gone stays
    gone and is not called; the two flags of every CallState only go from
    false to true; a cancel operation is scheduled, and a reference taken
    for it, exactly when [cancelled_] goes from false to true; and a slice
    buffer built by [grpc_slice_buffer_add] stays one. *)
Record progress (s s' : SubchannelStreamClient) : Prop := {
  progress_handler : event_handler_ s = None → event_handler_ s' = None;
  progress_silent : event_handler_ s = None → handler_calls s' = handler_calls s;
  progress_cancelled : ∀ id,
    cancelled_ (call_at id s) = true → cancelled_ (call_at id s') = true;
  progress_seen_response : ∀ id,
    seen_response_ (call_at id s) = true → seen_response_ (call_at id s') = true;
  progress_cancels : ∀ id,
    (cancels_scheduled id s' + Nat.b2n (cancelled_ (call_at id s))
     = cancels_scheduled id s + Nat.b2n (cancelled_ (call_at id s')))%nat;
  progress_cancel_refs : ∀ id,
    (cancel_refs id s' + Nat.b2n (cancelled_ (call_at id s))
     = cancel_refs id s + Nat.b2n (cancelled_ (call_at id s')))%nat;
  progress_buffer : ∀ id,
    (∃ slices, recv_message_buffer_ (call_at id s) = pulled slices) →
    ∃ slices, recv_message_buffer_ (call_at id s') = pulled slices;
}.

(** Every CallState that is not the active one has been cancelled. *)
Definition superseded_cancelled (s : SubchannelStreamClient) : Prop :=
  ∀ id, (id < length (heap s))%nat → call_state_ s ≠ Some id →
        cancelled_ (call_at id s) = true.

(** An inbound message given by its chunks, each with the flag whether
    [Next] finds it at once. *)
Definition chunked (chunks : list (bool * grpc_slice)) : ByteStream :=
  {| bs_length := length (concat (snd <$> chunks));
     bs_chunks := (λ c, {| available := c.1; pull := inr c.2 |}) <$> chunks |}.

(** The chunks [Next] has to wait for. *)
Definition awaited (chunks : list (bool * grpc_slice)) : nat :=
  length (List.filter (λ c, negb c.1) chunks).

(** Every CallState has been cancelled. *)
Definition all_cancelled (s : SubchannelStreamClient) : Prop :=
  ∀ id, (id < length (heap s))%nat → cancelled_ (call_at id s) = true.

(** The state a sequence of events leads to (the state itself if an event
    fails). *)
Definition after (evs : list Event) (s : SubchannelStreamClient) : SubchannelStreamClient :=
  match exec evs s with
  | Ok s' => s'
  | _ => s
  end.

(** The first attempt delivered a message and was then lost; the second
    attempt is running. *)
Definition second_attempt : SubchannelStreamClient :=
  after [MessageArrives 0 (Some (message_of [[Byte.x01; Byte.x02]; [Byte.x03]]));
         TrailingMetadataArrives 0
           {| GrpcStatusMetadata := Some GRPC_STATUS_UNAVAILABLE |} GRPC_ERROR_NONE]
        watching.

(** A chunk that [Pull] hands out as a slice. *)
Definition slice_chunk (c : bool * grpc_slice) : Chunk :=
  {| available := c.1; pull := inr c.2 |}.

(** The stream an event reads from, if it reads from one. *)
Definition stream_of (ev : Event) (s : SubchannelStreamClient) : option ByteStream :=
  match ev with
  | MessageArrives _ recv_message => recv_message
  | ChunkArrives self _ => recv_message_ (call_at self s)
  | _ => None
  end.

(** The events in which the transport completes a recv_message batch with
    the given message and then, once per chunk [Next] waits for, announces
    the chunk. *)
Definition message_events (self : nat) (chunks : list (bool * grpc_slice)) : list Event :=
  MessageArrives self (Some (chunked chunks))
  :: replicate (awaited chunks) (ChunkArrives self GRPC_ERROR_NONE).

(** Between [s] and [s'] the handler was given no message, or one message,
    of [total] bytes. *)
Definition delivered_at_most_one_of (total : nat) (s s' : SubchannelStreamClient) : Prop :=
  delivered_messages (log s') = delivered_messages (log s) ∨
  ∃ message, delivered_messages (log s') = message :: delivered_messages (log s) ∧
             length message = total.

(** ** The controller's own effects

    The log without the effects on CallStates: the calls into the handler
    that concern attempts and timers, the controller's references, the
    timer, and the transport calls created. *)
Definition controller_effects (l : list Effect) : list Effect :=
  List.filter (λ e, negb (call_event e)) l.

(** Every attempt is accounted for, and so is every arming of the timer:
    one CallState per call of [OnCallStartLocked], per reference
    [call_state_ref] and per call created on the subchannel; one
    [OnRetryTimerStartLocked] and one reference [health_retry_timer] per
    [grpc_timer_init]. *)
Record accounted (s : SubchannelStreamClient) : Prop := {
  accounted_announced : calls_started s = length (heap s);
  accounted_refs : occurrences is_call_state_ref (log s) = length (heap s);
  accounted_created : occurrences is_create (log s) = length (heap s);
  accounted_timers : occurrences is_timer_start_notification (log s) = timers_armed s;
  accounted_timer_refs : occurrences is_timer_ref (log s) = timers_armed s;
}.

(** The references taken for the timer and not yet released: one while the
    callback is pending, none otherwise. *)
Definition timer_balanced (s : SubchannelStreamClient) : Prop :=
  occurrences is_timer_ref (log s)
  = (occurrences is_timer_unref (log s) + Nat.b2n (retry_timer_callback_pending_ s))%nat.

(** The timer runs its callback once for every time it was armed: the
    callback only comes while one is pending. *)
Definition timely (ev : Event) (s : SubchannelStreamClient) : bool :=
  match ev with
  | TimerFires _ => retry_timer_callback_pending_ s
  | _ => true
  end.

Fixpoint all_timely (evs : list Event) (s : SubchannelStreamClient) : bool :=
  match evs with
  | [] => true
  | ev :: evs =>
      if enabled ev s then
        timely ev s && match run ev s with
                       | Ok s' => all_timely evs s'
                       | _ => true
                       end
      else all_timely evs s
  end.

(** * Properties *)

(** ** Reading the heap *)

Lemma call_at_lookup self s cs :
  heap s !! self = Some cs → call_at self s = cs.
Proof. unfold call_at. by intros ->. Qed.

Lemma call_at_emit self e s : call_at self (emit e s) = call_at self s.
Proof. reflexivity. Qed.

Lemma lookup_update_call self f s cs :
  heap s !! self = Some cs → heap (update_call self f s) !! self = Some (f cs).
Proof.
  intros H. unfold update_call. simpl.
  rewrite list_lookup_alter. rewrite decide_True by done. by rewrite H.
Qed.

Lemma call_at_fresh s cs :
  call_at (length (heap s)) (set_heap (heap s ++ [cs]) s) = cs.
Proof.
  unfold call_at. simpl. by rewrite list_lookup_middle.
Qed.

(** ** The recursion between controller and CallState is bounded *)

Lemma StartCallLocked_eq fuel s :
  StartCallLocked (S fuel) s =
  match event_handler_ s with
  | None => Ok s
  | Some _ =>
    match call_state_ s with
    | Some _ => AssertFailed
    | None => CallState_StartCallLocked fuel (length (heap s)) (attempt_created s)
    end
  end.
Proof. reflexivity. Qed.

Lemma CallState_StartCallLocked_eq fuel self s :
  CallState_StartCallLocked (S fuel) self s =
  let error := create_error (connected_subchannel_ s) self in
  let s := emit (EvCreate self error) s in
  if bool_decide (error ≠ GRPC_ERROR_NONE) || bool_decide (event_handler_ s = None)
  then CallEndedLocked fuel self true s
  else Ok (StartBatch self recv_trailing_metadata_batch_
             (StartBatch self batch_
                (emit (EvCallRef self recv_message_ready)
                   (emit (EvCallRef self recv_initial_metadata_ready)
                      (emit EvEncodeSendMessageLocked
                         (emit EvGetPathLocked
                            (emit (EvCallRef self on_complete) s))))))).
Proof. reflexivity. Qed.

Lemma CallEndedLocked_eq fuel self retry s :
  CallEndedLocked (S fuel) self retry s =
  (if bool_decide (call_state_ s = Some self) then
     let s := call_state_reset s in
     if retry then
       match event_handler_ s with
       | None => AssertFailed
       | Some _ =>
         if seen_response_ (call_at self s) then
           StartCallLocked fuel
             (set_retry_backoff_ (BackOff_Reset (retry_backoff_ s)) s)
         else Ok (StartRetryTimerLocked s)
       end
     else Ok s
   else Ok s) ≫= λ s, Ok (emit (EvCallUnref self call_ended) s).
Proof. reflexivity. Qed.

Global Opaque StartCallLocked CallState_StartCallLocked CallEndedLocked.

(** Orphaning the active CallState touches only its own [cancelled_] flag
    and the log. *)
Lemma Cancel_fields self s :
  connected_subchannel_ (Cancel self s) = connected_subchannel_ s ∧
  event_handler_ (Cancel self s) = event_handler_ s ∧
  call_state_ (Cancel self s) = call_state_ s ∧
  retry_backoff_ (Cancel self s) = retry_backoff_ s ∧
  retry_timer_callback_pending_ (Cancel self s) = retry_timer_callback_pending_ s ∧
  length (heap (Cancel self s)) = length (heap s).
Proof.
  unfold Cancel. destruct (cancelled_ _); simpl; rewrite ?length_alter; done.
Qed.

Lemma Cancel_seen_response self other s :
  seen_response_ (call_at other (Cancel self s)) = seen_response_ (call_at other s).
Proof.
  unfold Cancel. destruct (cancelled_ _); [done|].
  rewrite !call_at_emit. unfold call_at, update_call. simpl.
  rewrite list_lookup_alter. case_decide; [subst|done].
  by destruct (heap s !! other).
Qed.

Lemma call_state_reset_fields s :
  connected_subchannel_ (call_state_reset s) = connected_subchannel_ s ∧
  event_handler_ (call_state_reset s) = event_handler_ s ∧
  call_state_ (call_state_reset s) = None ∧
  retry_backoff_ (call_state_reset s) = retry_backoff_ s ∧
  retry_timer_callback_pending_ (call_state_reset s) = retry_timer_callback_pending_ s ∧
  length (heap (call_state_reset s)) = length (heap s).
Proof.
  unfold call_state_reset. destruct (call_state_ s) as [old|] eqn:E; [|done].
  unfold CallState_Orphan.
  destruct (Cancel_fields old (emit (EvCombinerCancel old) (set_call_state_ None s)))
    as (-> & -> & -> & -> & -> & ->). done.
Qed.

Lemma call_state_reset_seen_response other s :
  seen_response_ (call_at other (call_state_reset s)) = seen_response_ (call_at other s).
Proof.
  unfold call_state_reset. destruct (call_state_ s) as [old|]; [|done].
  unfold CallState_Orphan. by rewrite Cancel_seen_response.
Qed.

(** ** Steps inside a CallState *)

Arguments Cancel : simpl never.
Arguments DoneReadingRecvMessage : simpl never.
Arguments PullSliceFromRecvMessage : simpl never.
Arguments ContinueReadingRecvMessage : simpl never.
Arguments StartRetryTimerLocked : simpl never.
Arguments call_state_reset : simpl never.
Arguments attempt_started : simpl never.

Lemma call_step_refl s : call_step s s.
Proof. split; try done. by exists []. Qed.

Lemma call_step_trans s1 s2 s3 : call_step s1 s2 → call_step s2 s3 → call_step s1 s3.
Proof.
  intros [? ? ? ? ? ? (es1 & E1 & F1)] [? ? ? ? ? ? (es2 & E2 & F2)].
  split; try congruence.
  exists (es2 ++ es1). rewrite E2, E1, app_assoc. split; [done|].
  rewrite forallb_app. by rewrite F1, F2.
Qed.

Lemma call_step_emit e s : call_event e = true → call_step s (emit e s).
Proof. intros H. split; try done. exists [e]. simpl. by rewrite H. Qed.

Lemma call_step_update_call self f s : call_step s (update_call self f s).
Proof.
  split; try done.
  - simpl. apply length_alter.
  - by exists [].
Qed.

Lemma call_step_Cancel self s : call_step s (Cancel self s).
Proof.
  unfold Cancel. destruct (cancelled_ _); [apply call_step_refl|].
  eapply call_step_trans; [apply call_step_update_call|].
  eapply call_step_trans; by apply call_step_emit.
Qed.

Create HintDb call_step discriminated.
#[local] Hint Resolve call_step_refl call_step_update_call call_step_Cancel : call_step.
#[local] Hint Extern 1 (call_step _ (emit _ _)) =>
  (eapply call_step_trans; [|apply call_step_emit; reflexivity]) : call_step.
#[local] Hint Extern 2 (call_step _ (update_call _ _ _)) =>
  (eapply call_step_trans; [|apply call_step_update_call]) : call_step.
#[local] Hint Extern 2 (call_step _ (Cancel _ _)) =>
  (eapply call_step_trans; [|apply call_step_Cancel]) : call_step.

Lemma call_step_StartBatch self batch s : call_step s (StartBatch self batch s).
Proof. unfold StartBatch. auto with call_step. Qed.
#[local] Hint Extern 2 (call_step _ (StartBatch _ _ _)) =>
  (eapply call_step_trans; [|apply call_step_StartBatch]) : call_step.

Lemma call_step_DoneReadingRecvMessage self error s :
  call_step s (DoneReadingRecvMessage self error s).
Proof.
  unfold DoneReadingRecvMessage. destruct error.
  - auto 10 with call_step.
  - destruct (event_handler_ _) eqn:E; simpl; [|auto 10 with call_step].
    destruct (ok _); auto 10 with call_step.
Qed.

Lemma call_step_PullSliceFromRecvMessage self s :
  call_step s (PullSliceFromRecvMessage self s).2.
Proof.
  unfold PullSliceFromRecvMessage.
  destruct (recv_message_ _); [|apply call_step_refl].
  destruct (ByteStream_Pull _) as [[e|slice] bs]; simpl; auto 10 with call_step.
Qed.

Lemma call_step_ContinueReadingRecvMessage_loop n self s :
  call_step s (ContinueReadingRecvMessage_loop n self s).
Proof.
  revert s. induction n as [|n IH]; intros s; simpl; [apply call_step_refl|].
  destruct (recv_message_ _); [|apply call_step_refl].
  destruct (ByteStream_Next _); [|apply call_step_refl].
  pose proof (call_step_PullSliceFromRecvMessage self s) as Hp.
  destruct (PullSliceFromRecvMessage self s) as [[e|] s1]; simpl in Hp.
  - eapply call_step_trans; [done|apply call_step_DoneReadingRecvMessage].
  - destruct (message_complete self s1).
    + eapply call_step_trans; [done|apply call_step_DoneReadingRecvMessage].
    + eapply call_step_trans; [done|apply IH].
Qed.

Lemma call_step_ContinueReadingRecvMessage self s :
  call_step s (ContinueReadingRecvMessage self s).
Proof.
  unfold ContinueReadingRecvMessage.
  destruct (recv_message_ _); [|apply call_step_refl].
  apply call_step_ContinueReadingRecvMessage_loop.
Qed.

Lemma call_step_OnByteStreamNext self error s :
  call_step s (OnByteStreamNext self error s).
Proof.
  unfold OnByteStreamNext. destruct error.
  { apply call_step_DoneReadingRecvMessage. }
  pose proof (call_step_PullSliceFromRecvMessage self s) as Hp.
  destruct (PullSliceFromRecvMessage self s) as [[e|] s1]; simpl in Hp.
  - eapply call_step_trans; [done|apply call_step_DoneReadingRecvMessage].
  - destruct (message_complete self s1).
    + eapply call_step_trans; [done|apply call_step_DoneReadingRecvMessage].
    + eapply call_step_trans; [done|apply call_step_ContinueReadingRecvMessage].
Qed.

Lemma call_step_RecvMessageReady self s : call_step s (RecvMessageReady self s).
Proof.
  unfold RecvMessageReady.
  destruct (recv_message_ _).
  - eapply call_step_trans; [|apply call_step_ContinueReadingRecvMessage].
    auto with call_step.
  - auto with call_step.
Qed.

(** A step inside a CallState starts no attempt and arms no timer. *)
Lemma occurrences_app p l1 l2 :
  occurrences p (l1 ++ l2) = (occurrences p l1 + occurrences p l2)%nat.
Proof. unfold occurrences. by rewrite List.filter_app, length_app. Qed.

Lemma occurrences_none p es :
  (∀ e, call_event e = true → p e = false) →
  forallb call_event es = true → occurrences p es = 0%nat.
Proof.
  intros Hp. induction es as [|e es IH]; [done|]. simpl.
  intros [He Hes]%andb_prop. unfold occurrences in *. simpl.
  rewrite (Hp e He). auto.
Qed.

Lemma call_step_occurrences p s s' :
  (∀ e, call_event e = true → p e = false) →
  call_step s s' → occurrences p (log s') = occurrences p (log s).
Proof.
  intros Hp [_ _ _ _ _ _ (es & -> & F)].
  by rewrite occurrences_app, (occurrences_none p es Hp F).
Qed.

Lemma call_step_calls_started s s' : call_step s s' → calls_started s' = calls_started s.
Proof. apply call_step_occurrences. by intros []. Qed.

Lemma call_step_timers_armed s s' : call_step s s' → timers_armed s' = timers_armed s.
Proof. apply call_step_occurrences. by intros []. Qed.

Lemma call_step_reported_statuses s s' :
  call_step s s' → reported_statuses (log s') = reported_statuses (log s).
Proof.
  intros [_ _ _ _ _ _ (es & -> & F)].
  induction es as [|e es IH]; [done|]. simpl in F.
  apply andb_prop in F as [He Hes]. destruct e; try done; simpl; auto.
Qed.

Lemma occurrences_cons p e l :
  occurrences p (e :: l) = if p e then S (occurrences p l) else occurrences p l.
Proof. unfold occurrences. simpl. by destruct (p e). Qed.

Arguments occurrences : simpl never.

Ltac count_log :=
  unfold calls_started, timers_armed;
  cbn [log emit set_log set_heap set_call_state_ set_retry_backoff_
       set_retry_timer_callback_pending_ set_event_handler_ StartBatch];
  rewrite ?occurrences_cons;
  cbn [is_call_start is_timer_init is_timer_ref is_timer_unref is_orphan_unref
       reported_statuses delivered_messages].

(** ** Arming the timer, starting and ending an attempt *)

Lemma StartRetryTimerLocked_fields s :
  let s' := StartRetryTimerLocked s in
  connected_subchannel_ s' = connected_subchannel_ s ∧
  event_handler_ s' = event_handler_ s ∧
  call_state_ s' = call_state_ s ∧
  retry_backoff_ s' = (BackOff_NextAttemptTime (retry_backoff_ s)).2 ∧
  retry_timer_callback_pending_ s' = true ∧
  heap s' = heap s ∧
  calls_started s' = calls_started s ∧
  timers_armed s' = S (timers_armed s) ∧
  occurrences is_timer_ref (log s') = S (occurrences is_timer_ref (log s)) ∧
  occurrences is_timer_unref (log s') = occurrences is_timer_unref (log s) ∧
  reported_statuses (log s') = reported_statuses (log s).
Proof.
  unfold StartRetryTimerLocked.
  destruct (event_handler_ s) eqn:E; simpl; count_log; rewrite ?E; done.
Qed.

Global Opaque StartRetryTimerLocked.

Lemma call_step_call_state_reset s :
  call_step (set_call_state_ None s) (call_state_reset s).
Proof.
  unfold call_state_reset. destruct (call_state_ s) as [old|] eqn:E.
  - unfold CallState_Orphan. auto with call_step.
  - destruct s; simpl in *; subst. apply call_step_refl.
Qed.

Lemma call_state_reset_log p s :
  (∀ e, call_event e = true → p e = false) →
  occurrences p (log (call_state_reset s)) = occurrences p (log s).
Proof.
  intros Hp. by rewrite (call_step_occurrences p _ _ Hp (call_step_call_state_reset s)).
Qed.

Lemma call_state_reset_reported_statuses s :
  reported_statuses (log (call_state_reset s)) = reported_statuses (log s).
Proof. by rewrite (call_step_reported_statuses _ _ (call_step_call_state_reset s)). Qed.

Lemma call_state_reset_eq s :
  call_state_reset s =
  match call_state_ s with
  | Some old => Cancel old (emit (EvCombinerCancel old) (set_call_state_ None s))
  | None => s
  end.
Proof. reflexivity. Qed.

Global Opaque call_state_reset.

(** What a started attempt leaves behind. *)
Lemma attempt_started_fields s :
  let s' := attempt_started s in
  connected_subchannel_ s' = connected_subchannel_ s ∧
  event_handler_ s' = event_handler_ s ∧
  length (heap s') = S (length (heap s)) ∧
  calls_started s' = S (calls_started s) ∧
  occurrences is_timer_unref (log s') = occurrences is_timer_unref (log s) ∧
  reported_statuses (log s') = reported_statuses (log s) ∧
  match create_error (connected_subchannel_ s) (length (heap s)) with
  | None =>
      call_state_ s' = Some (length (heap s)) ∧
      retry_backoff_ s' = retry_backoff_ s ∧
      retry_timer_callback_pending_ s' = retry_timer_callback_pending_ s ∧
      timers_armed s' = timers_armed s
  | Some _ =>
      call_state_ s' = None ∧
      retry_backoff_ s' = (BackOff_NextAttemptTime (retry_backoff_ s)).2 ∧
      retry_timer_callback_pending_ s' = true ∧
      timers_armed s' = S (timers_armed s)
  end.
Proof.
  unfold attempt_started.
  destruct (create_error _ _) as [e|] eqn:E; cbn zeta.
  - set (s1 := emit _ (attempt_created s)).
    destruct (StartRetryTimerLocked_fields (call_state_reset s1))
      as (H1 & H2 & H3 & H4 & H5 & H6 & H7 & H8 & _ & H9 & H10).
    destruct (call_state_reset_fields s1) as (R1 & R2 & R3 & R4 & R5 & R6).
    count_log. unfold calls_started, timers_armed in *. simpl.
    rewrite H1, H2, H3, H4, H5, H6, H7, H8, H9, H10, R1, R2, R3, R4, R6.
    rewrite call_state_reset_reported_statuses.
    rewrite !call_state_reset_log by (by intros []).
    subst s1. unfold attempt_created. count_log. simpl. rewrite length_app. simpl.
    repeat split; try done; lia.
  - unfold attempt_created. count_log. simpl. rewrite length_app. simpl.
    repeat split; try done; lia.
Qed.

Lemma CallEndedLocked_not_active fuel self retry s :
  call_state_ s ≠ Some self →
  CallEndedLocked (S fuel) self retry s = Ok (emit (EvCallUnref self call_ended) s).
Proof. intros H. rewrite CallEndedLocked_eq. by rewrite bool_decide_false. Qed.

(** Ending the attempt that was just created arms the timer: the fresh
    CallState has seen no response. *)
Lemma CallState_StartCallLocked_created fuel s :
  is_Some (event_handler_ s) →
  CallState_StartCallLocked (S (S fuel)) (length (heap s)) (attempt_created s)
  = Ok (attempt_started s).
Proof.
  intros [h Hh]. rewrite CallState_StartCallLocked_eq. unfold attempt_started.
  cbn zeta.
  replace (connected_subchannel_ (attempt_created s)) with (connected_subchannel_ s) by done.
  replace (event_handler_ (emit _ (attempt_created s))) with (event_handler_ s) by done.
  rewrite Hh. rewrite (bool_decide_false (Some h = None)) by done.
  rewrite orb_false_r.
  destruct (create_error _ _) as [e|] eqn:E.
  - rewrite bool_decide_true by done.
    rewrite CallEndedLocked_eq. rewrite bool_decide_true by done.
    cbn zeta.
    set (s1 := emit _ (attempt_created s)).
    destruct (call_state_reset_fields s1) as (_ & -> & _).
    replace (event_handler_ s1) with (event_handler_ s) by done. rewrite Hh.
    rewrite call_state_reset_seen_response. subst s1. rewrite call_at_emit.
    unfold attempt_created. replace (call_at _ _) with CallState_new; [done|].
    symmetry. apply (call_at_fresh (emit (EvRef call_state_ref) (emit EvOnCallStartLocked s))).
  - rewrite bool_decide_false by (intros H; by apply H). done.
Qed.

Lemma StartCallLocked_started fuel s :
  is_Some (event_handler_ s) → call_state_ s = None →
  StartCallLocked (S (S (S fuel))) s = Ok (attempt_started s).
Proof.
  intros Hh Hc. rewrite StartCallLocked_eq. destruct Hh as [h Hh].
  rewrite Hh, Hc. apply CallState_StartCallLocked_created. by rewrite Hh.
Qed.

Lemma StartCallLocked_orphaned fuel s :
  event_handler_ s = None → StartCallLocked (S fuel) s = Ok s.
Proof. intros H. rewrite StartCallLocked_eq. by rewrite H. Qed.

(** With the handler present no assertion fails, and four levels of calls
    are enough. *)
Lemma CallEndedLocked_ended fuel self retry s :
  is_Some (event_handler_ s) ∨ retry = false ∨ call_state_ s ≠ Some self →
  CallEndedLocked (S (S (S (S fuel)))) self retry s = Ok (attempt_ended self retry s).
Proof.
  intros H. rewrite CallEndedLocked_eq. unfold attempt_ended.
  case_bool_decide as Hact; [|done]. cbn zeta.
  destruct retry; [|done].
  destruct H as [Hh|[?|?]]; [|done..].
  destruct (call_state_reset_fields s) as (_ & R2 & R3 & _).
  destruct Hh as [h Hh]. rewrite R2, Hh.
  destruct (seen_response_ _); [|done].
  rewrite StartCallLocked_started; [done| |done].
  simpl. by rewrite R2, Hh.
Qed.

Lemma CallEndedLocked_assert fuel self s :
  event_handler_ s = None → call_state_ s = Some self →
  CallEndedLocked (S fuel) self true s = AssertFailed.
Proof.
  intros Hh Hc. rewrite CallEndedLocked_eq. rewrite bool_decide_true by done.
  cbn zeta. destruct (call_state_reset_fields s) as (_ & -> & _). by rewrite Hh.
Qed.

(** ** The invariant holds in every reachable state *)

Lemma invariant_idle s : call_state_ s = None → invariant s.
Proof. intros H. split; rewrite H; [by intros []..|done]. Qed.

Lemma invariant_call_step s s' : call_step s s' → invariant s → invariant s'.
Proof.
  intros [_ Hh Hc _ Hp Hl _] [I1 I2 I3]. split; rewrite ?Hh, ?Hc, ?Hp, ?Hl; done.
Qed.

Lemma attempt_started_invariant s :
  retry_timer_callback_pending_ s = false → is_Some (event_handler_ s) →
  invariant (attempt_started s).
Proof.
  intros Hp Hh.
  destruct (attempt_started_fields s) as (_ & H2 & H3 & _ & _ & _ & H4).
  destruct (create_error _ _).
  - apply invariant_idle. by destruct H4.
  - destruct H4 as (H4 & _ & H5 & _). split; rewrite ?H4, ?H5, ?H2; try done.
    by intros self [= <-].
Qed.

Lemma attempt_ended_invariant self retry s :
  invariant s → invariant (attempt_ended self retry s).
Proof.
  intros I. unfold attempt_ended.
  eapply invariant_call_step; [by apply call_step_emit|].
  case_bool_decide as Hact; [|done]. cbn zeta.
  destruct (call_state_reset_fields s) as (R1 & R2 & R3 & R4 & R5 & R6).
  destruct retry; [|by apply invariant_idle].
  destruct (seen_response_ _).
  - apply attempt_started_invariant; simpl; rewrite ?R5, ?R2.
    + apply I. by rewrite Hact.
    + apply I. by rewrite Hact.
  - apply invariant_idle.
    destruct (StartRetryTimerLocked_fields (call_state_reset s)) as (_ & _ & -> & _).
    done.
Qed.

Lemma Orphan_fields s :
  connected_subchannel_ (Orphan s) = connected_subchannel_ s ∧
  event_handler_ (Orphan s) = None ∧
  call_state_ (Orphan s) = None ∧
  retry_backoff_ (Orphan s) = retry_backoff_ s ∧
  retry_timer_callback_pending_ (Orphan s) = retry_timer_callback_pending_ s ∧
  length (heap (Orphan s)) = length (heap s) ∧
  calls_started (Orphan s) = calls_started s ∧
  timers_armed (Orphan s) = timers_armed s.
Proof.
  unfold Orphan. cbn zeta.
  destruct (call_state_reset_fields (set_event_handler_ None s))
    as (R1 & R2 & R3 & R4 & R5 & R6).
  assert (∀ p, (∀ e, call_event e = true → p e = false) →
     occurrences p (log (call_state_reset (set_event_handler_ None s)))
     = occurrences p (log s)) as Hl.
  { intros p Hp. by rewrite call_state_reset_log. }
  destruct (retry_timer_callback_pending_ (call_state_reset _)) eqn:E;
    simpl; count_log; rewrite ?R1, ?R2, ?R3, ?R4, ?R5, ?R6, ?E;
    rewrite !Hl by (by intros []); done.
Qed.

(** The three guards of [OnRetryTimer]. *)
Lemma OnRetryTimer_eq error s :
  OnRetryTimer error s =
  let s := set_retry_timer_callback_pending_ false s in
  Ok (emit (EvUnref health_retry_timer)
        (if bool_decide (event_handler_ s ≠ None) && bool_decide (error = GRPC_ERROR_NONE)
            && bool_decide (call_state_ s = None)
         then attempt_started s else s)).
Proof.
  unfold OnRetryTimer. cbn zeta.
  set (s0 := set_retry_timer_callback_pending_ false s).
  destruct (bool_decide (event_handler_ s0 ≠ None)) eqn:E1; [|done].
  destruct (bool_decide (error = GRPC_ERROR_NONE)) eqn:E2; [|done].
  destruct (bool_decide (call_state_ s0 = None)) eqn:E3; [|done].
  simpl. apply bool_decide_eq_true_1 in E1, E3.
  unfold call_depth. rewrite StartCallLocked_started; [done| |done].
  by destruct (event_handler_ s0).
Qed.

Lemma RecvTrailingMetadataReady_unfold self error s :
  RecvTrailingMetadataReady self error s =
  CallEndedLocked call_depth self
    (bool_decide (get_call_status (recv_trailing_metadata_ (call_at self s)) error
                  ≠ GRPC_STATUS_UNIMPLEMENTED))
    (call_end_reported self error s).
Proof. reflexivity. Qed.

Lemma call_end_reported_fields self error s :
  let s' := call_end_reported self error s in
  connected_subchannel_ s' = connected_subchannel_ s ∧
  event_handler_ s' = event_handler_ s ∧
  call_state_ s' = call_state_ s ∧
  retry_backoff_ s' = retry_backoff_ s ∧
  retry_timer_callback_pending_ s' = retry_timer_callback_pending_ s ∧
  length (heap s') = length (heap s) ∧
  calls_started s' = calls_started s ∧
  timers_armed s' = timers_armed s ∧
  seen_response_ (call_at self s') = seen_response_ (call_at self s) ∧
  reported_statuses (log s') =
    match event_handler_ s with
    | Some _ => get_call_status (recv_trailing_metadata_ (call_at self s)) error
                :: reported_statuses (log s)
    | None => reported_statuses (log s)
    end.
Proof.
  unfold call_end_reported. cbn zeta. simpl.
  assert (seen_response_ (call_at self (update_call self
            (λ cs, set_recv_trailing_metadata_ (metadata_Clear (recv_trailing_metadata_ cs)) cs)
            (emit (EvCombinerStop self recv_trailing_metadata_ready) s)))
          = seen_response_ (call_at self s)) as Hseen.
  { unfold call_at, update_call. simpl. rewrite list_lookup_alter.
    rewrite decide_True by done. by destruct (heap s !! self). }
  destruct (event_handler_ s) eqn:E; simpl; count_log; simpl;
    rewrite ?length_alter, ?E; repeat split; try done.
Qed.

Lemma RecvTrailingMetadataReady_eq self error s :
  (is_Some (call_state_ s) → is_Some (event_handler_ s)) →
  RecvTrailingMetadataReady self error s =
  Ok (attempt_ended self
        (bool_decide (get_call_status (recv_trailing_metadata_ (call_at self s)) error
                      ≠ GRPC_STATUS_UNIMPLEMENTED))
        (call_end_reported self error s)).
Proof.
  intros H. rewrite RecvTrailingMetadataReady_unfold. unfold call_depth.
  apply CallEndedLocked_ended.
  destruct (call_end_reported_fields self error s) as (_ & -> & -> & _).
  destruct (event_handler_ s) eqn:E.
  - left. done.
  - right. right. intros Hc. destruct H as [? [=]]. by rewrite Hc.
Qed.

Lemma invariant_same s s' :
  event_handler_ s' = event_handler_ s → call_state_ s' = call_state_ s →
  retry_timer_callback_pending_ s' = retry_timer_callback_pending_ s →
  length (heap s') = length (heap s) →
  invariant s → invariant s'.
Proof.
  intros Hh Hc Hp Hl [I1 I2 I3]. split; rewrite ?Hh, ?Hc, ?Hp, ?Hl; done.
Qed.

Lemma invariant_emit e s : invariant s → invariant (emit e s).
Proof. by apply invariant_same. Qed.

Lemma run_invariant ev s :
  invariant s → ∃ s', run ev s = Ok s' ∧ invariant s'.
Proof.
  intros I.
  destruct ev as [|error|self|self|self m|self error|self md error|self c|self];
    simpl.
  - eexists; split; [done|]. apply invariant_idle. apply Orphan_fields.
  - rewrite OnRetryTimer_eq. eexists; split; [done|]. cbn zeta.
    apply invariant_emit.
    destruct (bool_decide (event_handler_ _ ≠ None)) eqn:E1; simpl.
    2:{ destruct I as [I1 I2 I3]. by split. }
    destruct (bool_decide (error = _)); simpl.
    2:{ destruct I as [I1 I2 I3]. by split. }
    destruct (bool_decide (call_state_ _ = None)) eqn:E3; simpl.
    2:{ destruct I as [I1 I2 I3]. by split. }
    apply attempt_started_invariant; [done|].
    apply bool_decide_eq_true_1 in E1. simpl in *.
    by destruct (event_handler_ s).
  - eexists; split; [done|]. eapply invariant_same; [..|exact I]; done.
  - eexists; split; [done|]. eapply invariant_same; [..|exact I]; done.
  - eexists; split; [done|].
    eapply invariant_call_step; [apply call_step_RecvMessageReady|].
    eapply invariant_call_step; [apply call_step_update_call|done].
  - eexists; split; [done|].
    eapply invariant_call_step; [apply call_step_OnByteStreamNext|done].
  - set (s1 := update_call self _ s).
    assert (invariant s1) as I1.
    { eapply invariant_call_step; [apply call_step_update_call|done]. }
    rewrite RecvTrailingMetadataReady_eq by apply I1.
    eexists; split; [done|].
    apply attempt_ended_invariant.
    destruct (call_end_reported_fields self error s1) as (_ & ? & ? & _ & ? & ? & _).
    by eapply (invariant_same s1).
  - destruct c; eexists; (split; [done|]);
      (eapply invariant_same; [..|exact I]; done).
  - eexists; split; [done|]. eapply invariant_same; [..|exact I]; done.
Qed.

Lemma new_invariant connected_subchannel event_handler s :
  SubchannelStreamClient_new connected_subchannel event_handler = Ok s →
  invariant s.
Proof.
  unfold SubchannelStreamClient_new, StartCall, call_depth.
  destruct event_handler as [h|].
  - rewrite StartCallLocked_started by (simpl; eauto).
    intros [= <-]. apply attempt_started_invariant; simpl; eauto.
  - rewrite StartCallLocked_orphaned by done.
    intros [= <-]. by apply invariant_idle.
Qed.

Lemma reachable_invariant s : reachable s → invariant s.
Proof.
  induction 1 as [sub h s Hnew|s ev s' _ IH _ Hrun].
  - by eapply new_invariant.
  - destruct (run_invariant ev s IH) as (s'' & Hrun' & I).
    rewrite Hrun' in Hrun. by injection Hrun as <-.
Qed.

Lemma enough_fuel fuel : (call_depth ≤ fuel)%nat → ∃ f, fuel = S (S (S (S f))).
Proof.
  unfold call_depth. intros H. exists (fuel - 4)%nat. lia.
Qed.

Lemma call_state_reset_calls_started s :
  calls_started (call_state_reset s) = calls_started s.
Proof. unfold calls_started. apply call_state_reset_log. by intros []. Qed.

Lemma call_state_reset_timers_armed s :
  timers_armed (call_state_reset s) = timers_armed s.
Proof. unfold timers_armed. apply call_state_reset_log. by intros []. Qed.

(** ** The retry decision *)

(** What ending the active attempt with a retry leaves behind. *)
Lemma attempt_ended_retry self s :
  call_state_ s = Some self → is_Some (heap s !! self) →
  let s' := attempt_ended self true s in
  call_state_ s' ≠ Some self ∧
  event_handler_ s' = event_handler_ s ∧
  if seen_response_ (call_at self s) then
    calls_started s' = S (calls_started s) ∧
    length (heap s') = S (length (heap s)) ∧
    match create_error (connected_subchannel_ s) (length (heap s)) with
    | None =>
        call_state_ s' = Some (length (heap s)) ∧
        retry_backoff_ s' = BackOff_initial ∧
        timers_armed s' = timers_armed s ∧
        retry_timer_callback_pending_ s' = retry_timer_callback_pending_ s
    | Some _ =>
        call_state_ s' = None ∧
        retry_backoff_ s' = (BackOff_NextAttemptTime BackOff_initial).2 ∧
        timers_armed s' = S (timers_armed s) ∧
        retry_timer_callback_pending_ s' = true
    end
  else
    call_state_ s' = None ∧
    retry_timer_callback_pending_ s' = true ∧
    timers_armed s' = S (timers_armed s) ∧
    retry_backoff_ s' = (BackOff_NextAttemptTime (retry_backoff_ s)).2 ∧
    calls_started s' = calls_started s ∧
    heap s' = heap (call_state_reset s).
Proof.
  intros Hact Halloc. unfold attempt_ended.
  rewrite bool_decide_true by done. cbn zeta.
  destruct (call_state_reset_fields s) as (R1 & R2 & R3 & R4 & R5 & R6).
  rewrite call_state_reset_seen_response.
  destruct (seen_response_ (call_at self s)).
  - set (s1 := set_retry_backoff_ _ _).
    destruct (attempt_started_fields s1) as (A1 & A2 & A3 & A4 & _ & _ & A5).
    assert (connected_subchannel_ s1 = connected_subchannel_ s) as E1 by done.
    assert (length (heap s1) = length (heap s)) as E2 by done.
    rewrite E1, E2 in A5.
    assert (calls_started s1 = calls_started s) as E3
      by apply call_state_reset_calls_started.
    assert (timers_armed s1 = timers_armed s) as E4
      by apply call_state_reset_timers_armed.
    unfold calls_started, timers_armed in *. count_log. simpl.
    rewrite A2, A3, A4, E2, E3.
    apply lookup_lt_is_Some in Halloc.
    destruct (create_error _ _); destruct A5 as (-> & -> & -> & ->);
      rewrite ?E4; (split; [|done]); [done|].
    intros [= ?]. lia.
  - destruct (StartRetryTimerLocked_fields (call_state_reset s))
      as (_ & T2 & T3 & T4 & T5 & T6 & T7 & T8 & _).
    unfold calls_started, timers_armed in *. count_log. simpl.
    rewrite T2, T3, T4, T5, T6, T7, T8, R2, R3, R4.
    fold (calls_started (call_state_reset s)) (timers_armed (call_state_reset s)).
    by rewrite call_state_reset_calls_started, call_state_reset_timers_armed.
Qed.

(** Ending an attempt without retry, or one that is not the active one,
    starts nothing and arms nothing. *)
Lemma attempt_ended_quiet self retry s :
  retry = false ∨ call_state_ s ≠ Some self →
  let s' := attempt_ended self retry s in
  connected_subchannel_ s' = connected_subchannel_ s ∧
  event_handler_ s' = event_handler_ s ∧
  call_state_ s' = (if bool_decide (call_state_ s = Some self) then None else call_state_ s) ∧
  retry_backoff_ s' = retry_backoff_ s ∧
  retry_timer_callback_pending_ s' = retry_timer_callback_pending_ s ∧
  length (heap s') = length (heap s) ∧
  calls_started s' = calls_started s ∧
  timers_armed s' = timers_armed s.
Proof.
  intros H. unfold attempt_ended.
  destruct (call_state_reset_fields s) as (R1 & R2 & R3 & R4 & R5 & R6).
  case_bool_decide as Hact; cbn zeta.
  - destruct H as [->|?]; [|done].
    unfold calls_started, timers_armed. count_log. simpl.
    fold (calls_started (call_state_reset s)) (timers_armed (call_state_reset s)).
    by rewrite call_state_reset_calls_started, call_state_reset_timers_armed.
  - unfold calls_started, timers_armed. by count_log.
Qed.

Lemma attempt_ended_reported_statuses self retry s :
  reported_statuses (log (attempt_ended self retry s)) = reported_statuses (log s).
Proof.
  unfold attempt_ended. count_log.
  case_bool_decide; [|done]. cbn zeta.
  destruct retry; [|apply call_state_reset_reported_statuses].
  destruct (seen_response_ _).
  - destruct (attempt_started_fields
                (set_retry_backoff_ (BackOff_Reset (retry_backoff_ (call_state_reset s)))
                   (call_state_reset s))) as (_ & _ & _ & _ & _ & -> & _).
    simpl. apply call_state_reset_reported_statuses.
  - destruct (StartRetryTimerLocked_fields (call_state_reset s))
      as (_ & _ & _ & _ & _ & _ & _ & _ & _ & _ & ->).
    apply call_state_reset_reported_statuses.
Qed.



(** C2.  [RecvTrailingMetadataReady] calls [CallEndedLocked] with retry
    requested exactly when the extracted status is not UNIMPLEMENTED.  With
    UNIMPLEMENTED nothing is started and no timer is armed, whatever
    [seen_response_] is and whether or not the CallState is still the
    active one.  With any other status, for the active CallState of a
    controller that still has its handler, a call is started at once if a
    response had been seen and the retry timer is armed otherwise. *)
Theorem RecvTrailingMetadataReady_retry_iff (self : nat) (error : grpc_error_handle)
    (s : SubchannelStreamClient) :
  let status := get_call_status (recv_trailing_metadata_ (call_at self s)) error in
  RecvTrailingMetadataReady self error s
  = CallEndedLocked call_depth self
      (bool_decide (status ≠ GRPC_STATUS_UNIMPLEMENTED))
      (call_end_reported self error s) ∧
  (status = GRPC_STATUS_UNIMPLEMENTED →
   ∃ s', RecvTrailingMetadataReady self error s = Ok s' ∧
     calls_started s' = calls_started s ∧
     timers_armed s' = timers_armed s ∧
     retry_timer_callback_pending_ s' = retry_timer_callback_pending_ s ∧
     length (heap s') = length (heap s) ∧
     call_state_ s' ≠ Some self) ∧
  (status ≠ GRPC_STATUS_UNIMPLEMENTED →
   is_Some (event_handler_ s) → call_state_ s = Some self → is_Some (heap s !! self) →
   ∃ s', RecvTrailingMetadataReady self error s = Ok s' ∧
     if seen_response_ (call_at self s)
     then calls_started s' = S (calls_started s)
     else timers_armed s' = S (timers_armed s) ∧
          retry_timer_callback_pending_ s' = true).
Proof.
  intros status. split; [reflexivity|].
  destruct (call_end_reported_fields self error s)
    as (F1 & F2 & F3 & F4 & F5 & F6 & F7 & F8 & F9 & _).
  rewrite RecvTrailingMetadataReady_unfold. fold status. unfold call_depth. split.
  - intros Hst. rewrite bool_decide_false by (by intros []).
    rewrite CallEndedLocked_ended by auto.
    eexists; split; [done|].
    destruct (attempt_ended_quiet self false (call_end_reported self error s)
                (or_introl eq_refl))
      as (_ & _ & Q3 & _ & Q5 & Q6 & Q7 & Q8).
    rewrite Q5, Q6, Q7, Q8, Q3. repeat split; try done.
    case_bool_decide; congruence.
  - intros Hst Hh Hact Halloc. rewrite bool_decide_true by done.
    rewrite CallEndedLocked_ended by (left; by rewrite F2).
    eexists; split; [done|].
    assert (call_state_ (call_end_reported self error s) = Some self) as Hact'
      by congruence.
    assert (is_Some (heap (call_end_reported self error s) !! self)) as Halloc'.
    { apply lookup_lt_is_Some. rewrite F6. by apply lookup_lt_is_Some. }
    destruct (attempt_ended_retry self _ Hact' Halloc') as (_ & _ & H).
    rewrite F9 in H. destruct (seen_response_ (call_at self s)).
    + destruct H as (-> & _). by rewrite F7.
    + destruct H as (_ & -> & -> & _). by rewrite F8.
Qed.

Lemma RecvTrailingMetadataReady_retry_iff_witness :
  (∃ s', RecvTrailingMetadataReady 0 GRPC_ERROR_NONE rejected = Ok s' ∧
         calls_started s' = calls_started rejected ∧
         timers_armed s' = timers_armed rejected) ∧
  (∃ s', RecvTrailingMetadataReady 0 GRPC_ERROR_NONE connection_lost = Ok s' ∧
         calls_started s' = S (calls_started connection_lost)).
Proof.
  split.
  - pose proof (RecvTrailingMetadataReady_retry_iff 0 GRPC_ERROR_NONE rejected) as H.
    cbv zeta in H. destruct H as (_ & H & _).
    destruct H as (s' & E & H1 & H2 & _); [done|].
    by exists s'.
  - pose proof (RecvTrailingMetadataReady_retry_iff 0 GRPC_ERROR_NONE connection_lost)
      as H.
    cbv zeta in H. destruct H as (_ & _ & H).
    destruct H as (s' & E & H); [done|by eexists|done|by eexists|].
    by exists s'.
Defined.

(** ** The terminal status *)

(** C3, as amended.  The status reported to the handler is the translation
    of the delivered error whenever an error is delivered, also when the
    trailing metadata carries an explicit status; without an error it is
    the explicit status of the trailing metadata, and UNKNOWN when there is
    none.  It is reported exactly once per completion. *)
Theorem RecvTrailingMetadataReady_status (self : nat) (error : grpc_error_handle)
    (s : SubchannelStreamClient) :
  is_Some (event_handler_ s) →
  ∃ s', RecvTrailingMetadataReady self error s = Ok s' ∧
    reported_statuses (log s') =
      match error with
      | Some e => grpc_error_get_status e
      | None => default GRPC_STATUS_UNKNOWN
                  (GrpcStatusMetadata (recv_trailing_metadata_ (call_at self s)))
      end :: reported_statuses (log s).
Proof.
  intros Hh. rewrite RecvTrailingMetadataReady_eq by done.
  eexists; split; [done|]. rewrite attempt_ended_reported_statuses.
  destruct (call_end_reported_fields self error s)
    as (_ & _ & _ & _ & _ & _ & _ & _ & _ & ->).
  destruct Hh as [h ->]. unfold get_call_status. by destruct error.
Qed.

Lemma RecvTrailingMetadataReady_status_witness :
  ∃ s', RecvTrailingMetadataReady 0 GRPC_ERROR_NONE connection_lost = Ok s' ∧
    reported_statuses (log s') = [GRPC_STATUS_UNAVAILABLE].
Proof.
  destruct (RecvTrailingMetadataReady_status 0 GRPC_ERROR_NONE connection_lost)
    as (s' & E & H); [by eexists|].
  by exists s'.
Defined.

(** C3, as stated, fails.  The trailing metadata of the first attempt
    carries the explicit status UNIMPLEMENTED and the completion delivers an
    UNAVAILABLE error: the handler is told UNAVAILABLE, and the attempt is
    retried (the timer is armed) although the explicit status asks to give
    up. *)
Lemma explicit_status_overridden :
  ∃ s', exec [TrailingMetadataArrives 0
                {| GrpcStatusMetadata := Some GRPC_STATUS_UNIMPLEMENTED |}
                (Some (ERROR_WITH_STATUS GRPC_STATUS_UNAVAILABLE))] watching = Ok s' ∧
    reported_statuses (log s') = [GRPC_STATUS_UNAVAILABLE] ∧
    reported_statuses (log s') ≠ [GRPC_STATUS_UNIMPLEMENTED] ∧
    timers_armed s' = S (timers_armed watching) ∧
    retry_timer_callback_pending_ s' = true.
Proof. eexists. split; [vm_compute; reflexivity|]. done. Qed.

(** ** Assembling a message *)

Lemma fold_add_fields slices sb :
  SliceBuffer.slices (fold_left SliceBuffer.add slices sb)
    = SliceBuffer.slices sb ++ slices ∧
  SliceBuffer.count (fold_left SliceBuffer.add slices sb)
    = (SliceBuffer.count sb + length slices)%nat ∧
  SliceBuffer.length (fold_left SliceBuffer.add slices sb)
    = (SliceBuffer.length sb + length (concat slices))%nat.
Proof.
  revert sb. induction slices as [|slice slices IH]; intros sb; simpl.
  - rewrite app_nil_r. repeat split; lia.
  - destruct (IH (SliceBuffer.add sb slice)) as (-> & -> & ->). simpl.
    rewrite <- app_assoc, length_app. simpl. repeat split; lia.
Qed.

Lemma pulled_fields slices :
  SliceBuffer.slices (pulled slices) = slices ∧
  SliceBuffer.count (pulled slices) = length slices ∧
  SliceBuffer.length (pulled slices) = length (concat slices).
Proof. unfold pulled. by destruct (fold_add_fields slices SliceBuffer.init) as (-> & -> & ->). Qed.

Lemma pulled_snoc slices slice :
  SliceBuffer.add (pulled slices) slice = pulled (slices ++ [slice]).
Proof. unfold pulled. by rewrite fold_left_app. Qed.

(** The copy loop fills the region from [offset] on with the slices in
    order and leaves the rest of the buffer alone. *)
Lemma copy_slices_spec slices recv_message offset :
  (offset + length (concat slices) ≤ length recv_message)%nat →
  copy_slices slices recv_message offset
  = take offset recv_message ++ concat slices
    ++ drop (offset + length (concat slices)) recv_message.
Proof.
  revert recv_message offset.
  induction slices as [|slice slices IH]; intros recv_message offset Hlen; simpl.
  - rewrite Nat.add_0_r. by rewrite take_drop.
  - simpl in Hlen. rewrite length_app in Hlen.
    rewrite IH.
    2:{ unfold memcpy. rewrite !length_app, length_take, length_take, length_drop. lia. }
    unfold memcpy. rewrite firstn_all.
    assert (length (take offset recv_message) = offset) as Ht
      by (apply length_take_le; lia).
    rewrite (app_assoc (take offset recv_message) slice).
    rewrite take_app_length' by (rewrite length_app; lia).
    rewrite drop_app_add' by (rewrite length_app; lia).
    rewrite drop_drop, length_app, <- !app_assoc.
    do 4 f_equal. lia.
Qed.

(** Both ways of forming the string give the concatenation. *)
Lemma serialized_message_pulled slices :
  serialized_message (pulled slices) = concat slices.
Proof.
  unfold serialized_message, concatenate_slices.
  destruct (pulled_fields slices) as (-> & -> & ->).
  case_bool_decide as Hone.
  - destruct slices as [|slice [|]]; try done. simpl.
    rewrite app_nil_r. apply firstn_all.
  - rewrite firstn_all. rewrite copy_slices_spec.
    2:{ unfold gpr_malloc. rewrite length_replicate. lia. }
    simpl. unfold gpr_malloc.
    rewrite drop_ge by (rewrite length_replicate; lia).
    rewrite app_nil_r. apply firstn_all.
Qed.

(** ** The end of a message read *)

Lemma Cancel_eq self s :
  Cancel self s =
  if cancelled_ (call_at self s) then s
  else emit (EvCombinerStart self StartCancelClosure health_cancel)
         (emit (EvCallRef self cancel) (update_call self (set_cancelled_ true) s)).
Proof. reflexivity. Qed.

Lemma lookup_Cancel self s cs :
  heap s !! self = Some cs →
  heap (Cancel self s) !! self = Some (set_cancelled_ true cs).
Proof.
  intros H. rewrite Cancel_eq, (call_at_lookup _ _ _ H).
  destruct (cancelled_ cs) eqn:E.
  - rewrite H. f_equal. destruct cs; simpl in *; by subst.
  - simpl. rewrite list_lookup_alter, decide_True by done. by rewrite H.
Qed.

Lemma log_Cancel self s cs :
  heap s !! self = Some cs →
  log (Cancel self s) =
  if cancelled_ cs then log s
  else EvCombinerStart self StartCancelClosure health_cancel
       :: EvCallRef self cancel :: log s.
Proof.
  intros H. rewrite Cancel_eq, (call_at_lookup _ _ _ H).
  by destruct (cancelled_ cs).
Qed.

(** The CallState and the log after a message was read to its end. *)
Lemma DoneReadingRecvMessage_read self s cs :
  heap s !! self = Some cs →
  let message := serialized_message (recv_message_buffer_ cs) in
  let s' := DoneReadingRecvMessage self GRPC_ERROR_NONE s in
  let rejected :=
    match event_handler_ s with
    | Some h => negb (ok (RecvMessageReadyLocked h message))
    | None => false
    end in
  heap s' !! self =
    Some {| cancelled_ := cancelled_ cs || rejected;
            seen_response_ := true;
            recv_message_ := None;
            recv_message_buffer_ := SliceBuffer.init;
            recv_trailing_metadata_ := recv_trailing_metadata_ cs |} ∧
  log s' =
    EvCombinerStart self (StartBatchInCallCombiner recv_message_batch_)
      start_subchannel_batch
    :: (if rejected && negb (cancelled_ cs)
        then [EvCombinerStart self StartCancelClosure health_cancel;
              EvCallRef self cancel]
        else [])
    ++ match event_handler_ s with
       | Some h => [EvRecvMessageReadyLocked message (RecvMessageReadyLocked h message)]
       | None => []
       end
    ++ log s.
Proof.
  intros H message s' rejected. subst s' rejected message.
  unfold DoneReadingRecvMessage, GRPC_ERROR_NONE. cbn zeta.
  pose proof (lookup_update_call self (set_recv_message_ None) s cs H) as H1.
  rewrite (call_at_lookup _ _ _ H1).
  replace (event_handler_ (update_call self (set_recv_message_ None) s))
    with (event_handler_ s) by done.
  replace (recv_message_buffer_ (set_recv_message_ None cs))
    with (recv_message_buffer_ cs) by done.
  set (message := serialized_message (recv_message_buffer_ cs)).
  set (s1 := update_call self (set_recv_message_ None) s) in *.
  destruct (event_handler_ s) as [h|] eqn:Eh.
  - set (status := RecvMessageReadyLocked h message).
    destruct (ok status) eqn:Eok; simpl negb.
    + unfold StartBatch. simpl.
      rewrite !list_lookup_alter, !decide_True by done. rewrite H. simpl.
      by rewrite orb_false_r.
    + set (s2 := emit (EvRecvMessageReadyLocked message status) s1).
      assert (heap s2 !! self = Some (set_recv_message_ None cs)) as H2 by done.
      pose proof (lookup_Cancel self s2 _ H2) as H3.
      pose proof (log_Cancel self s2 _ H2) as L3.
      unfold StartBatch. simpl.
      rewrite !list_lookup_alter, !decide_True by done.
      rewrite H3, L3. simpl. rewrite orb_true_r.
      split; [done|]. by destruct (cancelled_ cs).
  - unfold StartBatch. simpl.
    rewrite !list_lookup_alter, !decide_True by done. rewrite H. simpl.
    by rewrite orb_false_r.
Qed.

(** The CallState and the log after a read that failed. *)
Lemma DoneReadingRecvMessage_failed self e s cs :
  heap s !! self = Some cs →
  let s' := DoneReadingRecvMessage self (Some e) s in
  heap s' !! self =
    Some {| cancelled_ := true;
            seen_response_ := seen_response_ cs;
            recv_message_ := None;
            recv_message_buffer_ := SliceBuffer.init;
            recv_trailing_metadata_ := recv_trailing_metadata_ cs |} ∧
  delivered_messages (log s') = delivered_messages (log s).
Proof.
  intros H. unfold DoneReadingRecvMessage. cbn zeta.
  pose proof (lookup_update_call self (set_recv_message_ None) s cs H) as H1.
  pose proof (lookup_Cancel self _ _ H1) as H2.
  pose proof (log_Cancel self _ _ H1) as L2.
  simpl. rewrite !list_lookup_alter, !decide_True by done.
  rewrite H2, L2. simpl. split; [done|]. by destruct (cancelled_ cs).
Qed.




(** ** A message the handler rejects *)




(** ** Pulling the chunks of a message *)

Lemma PullSliceFromRecvMessage_slice self s cs bs c rest slice :
  heap s !! self = Some cs → recv_message_ cs = Some bs →
  bs_chunks bs = c :: rest → pull c = inr slice →
  let r := PullSliceFromRecvMessage self s in
  r.1 = GRPC_ERROR_NONE ∧
  heap r.2 !! self =
    Some (set_recv_message_buffer_ (SliceBuffer.add (recv_message_buffer_ cs) slice)
            (set_recv_message_ (Some {| bs_length := bs_length bs; bs_chunks := rest |}) cs)) ∧
  log r.2 = log s ∧ event_handler_ r.2 = event_handler_ s.
Proof.
  intros H Hbs Hc Hp. unfold PullSliceFromRecvMessage.
  rewrite (call_at_lookup _ _ _ H), Hbs. unfold ByteStream_Pull. rewrite Hc, Hp.
  simpl. rewrite !list_lookup_alter, !decide_True by done. by rewrite H.
Qed.

(** The bound given to the loop of [ContinueReadingRecvMessage], one turn
    per chunk left in the stream, is enough: a larger one gives the same
    state. *)
Lemma ContinueReadingRecvMessage_loop_enough n : ∀ m self s,
  (∀ bs, recv_message_ (call_at self s) = Some bs → (length (bs_chunks bs) ≤ n)%nat) →
  (n ≤ m)%nat →
  ContinueReadingRecvMessage_loop m self s = ContinueReadingRecvMessage_loop n self s.
Proof.
  induction n as [|n IH]; intros m self s Hlen Hm.
  - destruct m as [|m]; [done|]. cbn [ContinueReadingRecvMessage_loop].
    destruct (recv_message_ (call_at self s)) as [bs|] eqn:Hbs; [|done].
    specialize (Hlen bs eq_refl). unfold ByteStream_Next.
    destruct (bs_chunks bs); [done|simpl in Hlen; lia].
  - destruct m as [|m]; [lia|]. cbn [ContinueReadingRecvMessage_loop].
    destruct (recv_message_ (call_at self s)) as [bs|] eqn:Hbs; [|done].
    destruct (ByteStream_Next bs) eqn:Hnext; [|done].
    specialize (Hlen bs eq_refl).
    destruct (heap s !! self) as [cs|] eqn:H.
    2:{ unfold call_at in Hbs. by rewrite H in Hbs. }
    rewrite (call_at_lookup _ _ _ H) in Hbs.
    destruct (bs_chunks bs) as [|c rest] eqn:Hc.
    { unfold ByteStream_Next in Hnext. by rewrite Hc in Hnext. }
    assert (∀ bs', recv_message_ (call_at self (PullSliceFromRecvMessage self s).2) = Some bs' →
                   (length (bs_chunks bs') ≤ n)%nat) as Hlen'.
    { unfold PullSliceFromRecvMessage. rewrite (call_at_lookup _ _ _ H), Hbs.
      unfold ByteStream_Pull. rewrite Hc.
      destruct (pull c); simpl; unfold call_at; simpl;
        rewrite ?list_lookup_alter, ?decide_True by done; rewrite H; simpl;
        intros bs' [= <-]; simpl in *; lia. }
    destruct (PullSliceFromRecvMessage self s) as [[e|] s1]; [done|].
    destruct (message_complete self s1); [done|].
    apply IH; [exact Hlen'|lia].
Qed.

(** C10.  The slices pulled from the message stream are added to the
    buffer in the order pulled; when the read ends, the string handed to
    the handler is their concatenation in that order, its length is the
    buffer's accumulated length, and the copy loop of the general path
    yields these same bytes for any number of slices, one included, so the
    single-slice fast path and the general path agree. *)
Theorem message_is_concatenation_of_chunks (self : nat) (s : SubchannelStreamClient)
    (cs : CallState) (h : CallEventHandler) (slices : list grpc_slice) :
  heap s !! self = Some cs → event_handler_ s = Some h →
  recv_message_buffer_ cs = pulled slices →
  (∀ bs c rest slice,
     recv_message_ cs = Some bs → bs_chunks bs = c :: rest → pull c = inr slice →
     recv_message_buffer_ (call_at self (PullSliceFromRecvMessage self s).2)
     = pulled (slices ++ [slice])) ∧
  delivered_messages (log (DoneReadingRecvMessage self GRPC_ERROR_NONE s))
    = concat slices :: delivered_messages (log s) ∧
  length (concat slices) = SliceBuffer.length (recv_message_buffer_ cs) ∧
  serialized_message (pulled slices) = concat slices ∧
  take (SliceBuffer.length (pulled slices))
       (copy_slices slices (gpr_malloc (SliceBuffer.length (pulled slices))) 0)
    = concat slices.
Proof.
  intros H Hh Hbuf. split; [|split; [|split; [|split]]].
  - intros bs c rest slice Hbs Hc Hp.
    destruct (PullSliceFromRecvMessage_slice self s cs bs c rest slice H Hbs Hc Hp)
      as (_ & H1 & _).
    rewrite (call_at_lookup _ _ _ H1). simpl. rewrite Hbuf. apply pulled_snoc.
  - destruct (DoneReadingRecvMessage_read self s cs H) as [_ L].
    cbv zeta in L. rewrite L, Hh, Hbuf, serialized_message_pulled.
    by destruct (negb _ && _).
  - rewrite Hbuf. by destruct (pulled_fields slices) as (_ & _ & ->).
  - apply serialized_message_pulled.
  - destruct (pulled_fields slices) as (_ & _ & ->).
    rewrite copy_slices_spec by (unfold gpr_malloc; rewrite length_replicate; lia).
    simpl. unfold gpr_malloc.
    rewrite drop_ge by (rewrite length_replicate; lia).
    rewrite app_nil_r. apply firstn_all.
Qed.

Lemma message_is_concatenation_of_chunks_witness :
  delivered_messages
    (log (DoneReadingRecvMessage 0 GRPC_ERROR_NONE
            (update_call 0 (set_recv_message_buffer_
                              (pulled [[Byte.x01; Byte.x02]; []; [Byte.x03]]))
               watching)))
  = [[Byte.x01; Byte.x02; Byte.x03]].
Proof.
  pose proof (message_is_concatenation_of_chunks 0
    (update_call 0 (set_recv_message_buffer_
                      (pulled [[Byte.x01; Byte.x02]; []; [Byte.x03]])) watching)
    (set_recv_message_buffer_ (pulled [[Byte.x01; Byte.x02]; []; [Byte.x03]]) CallState_new)
    rejects_empty [[Byte.x01; Byte.x02]; []; [Byte.x03]]) as H.
  destruct H as (_ & H & _); [done..|]. exact H.
Defined.

(** The whole synchronous read: a message whose chunks are all available
    is handed to the handler as the concatenation of its chunks. *)
Lemma ContinueReadingRecvMessage_loop_delivers self h (rest : list grpc_slice) :
  ∀ (pre : list grpc_slice) n s cs,
  heap s !! self = Some cs → event_handler_ s = Some h →
  recv_message_ cs =
    Some {| bs_length := length (concat (pre ++ rest));
            bs_chunks := (λ slice, {| available := true; pull := inr slice |}) <$> rest |} →
  recv_message_buffer_ cs = pulled pre →
  rest ≠ [] → (length rest ≤ n)%nat →
  delivered_messages (log (ContinueReadingRecvMessage_loop n self s))
  = concat (pre ++ rest) :: delivered_messages (log s).
Proof.
  induction rest as [|c rest IH]; intros pre n s cs H Hh Hbs Hbuf Hne Hn; [done|].
  destruct n as [|n]; [simpl in Hn; lia|].
  cbn [ContinueReadingRecvMessage_loop].
  rewrite (call_at_lookup _ _ _ H), Hbs. cbn [ByteStream_Next bs_chunks fmap list_fmap available].
  destruct (PullSliceFromRecvMessage_slice self s cs _ _ _ c H Hbs eq_refl eq_refl)
    as (E1 & H1 & L1 & Hh1).
  destruct (PullSliceFromRecvMessage self s) as [err s1]. simpl in E1, H1, L1, Hh1.
  subst err. unfold GRPC_ERROR_NONE at 1. cbv iota.
  unfold message_complete. rewrite (call_at_lookup _ _ _ H1).
  cbn [recv_message_ recv_message_buffer_ set_recv_message_ set_recv_message_buffer_ bs_length].
  rewrite Hbuf, pulled_snoc.
  destruct (pulled_fields (pre ++ [c])) as (_ & _ & Elen). rewrite Elen.
  rewrite Hbuf, pulled_snoc in H1.
  case_bool_decide as Hcomplete.
  - destruct (DoneReadingRecvMessage_read self s1 _ H1) as [_ L].
    cbv zeta in L. rewrite L, Hh1, Hh, L1.
    cbn [recv_message_buffer_ set_recv_message_buffer_].
    rewrite serialized_message_pulled.
    assert (concat rest = []) as Hrest.
    { apply length_zero_iff_nil.
      rewrite !concat_app, !length_app in Hcomplete. simpl in Hcomplete.
      rewrite !length_app in Hcomplete. simpl in Hcomplete. lia. }
    replace (concat (pre ++ c :: rest)) with (concat (pre ++ [c])).
    2:{ rewrite !concat_app. simpl. by rewrite Hrest. }
    by destruct (negb _ && _).
  - assert (rest ≠ []) as Hne'.
    { intros ->. by apply Hcomplete. }
    rewrite (IH (pre ++ [c]) n s1 _ H1); rewrite <- ?app_assoc; simpl;
      rewrite ?Hh1, ?L1; try done.
    simpl in Hn. lia.
Qed.

Lemma RecvMessageReady_delivers_concatenation self s cs h (chunks : list grpc_slice) :
  heap s !! self = Some cs → event_handler_ s = Some h →
  recv_message_ cs = Some (message_of chunks) → chunks ≠ [] →
  delivered_messages (log (RecvMessageReady self s))
  = concat chunks :: delivered_messages (log s).
Proof.
  intros H Hh Hbs Hne. unfold RecvMessageReady. cbn zeta.
  rewrite call_at_emit, (call_at_lookup _ _ _ H), Hbs.
  set (s1 := update_call self (set_recv_message_buffer_ SliceBuffer.init)
               (emit (EvCombinerStop self recv_message_ready) s)).
  assert (heap s1 !! self = Some (set_recv_message_buffer_ SliceBuffer.init cs)) as H1.
  { subst s1. simpl. rewrite list_lookup_alter, decide_True by done. by rewrite H. }
  unfold ContinueReadingRecvMessage. rewrite (call_at_lookup _ _ _ H1).
  cbn [recv_message_ set_recv_message_buffer_]. rewrite Hbs.
  rewrite (ContinueReadingRecvMessage_loop_delivers self h chunks [] _ s1 _ H1);
    try done.
  unfold message_of. simpl. by rewrite length_fmap.
Qed.

(** ** After shutdown *)

(** One event on a controller whose handler is gone: it runs to its end,
    the handler stays gone, nothing is started and nothing is armed. *)
Lemma orphaned_run ev s :
  invariant s → event_handler_ s = None →
  ∃ s', run ev s = Ok s' ∧ invariant s' ∧
    event_handler_ s' = None ∧ call_state_ s' = None ∧
    length (heap s') = length (heap s) ∧
    calls_started s' = calls_started s ∧ timers_armed s' = timers_armed s ∧
    (retry_timer_callback_pending_ s' = true → retry_timer_callback_pending_ s = true).
Proof.
  intros I Hh.
  assert (call_state_ s = None) as Hc.
  { destruct (call_state_ s) eqn:E; [|done].
    destruct (inv_handler s I) as [h Hh']; [by rewrite E|]. congruence. }
  destruct (run_invariant ev s I) as (s' & Hrun & I').
  exists s'. split; [done|]. split; [done|].
  assert (∀ s1, call_step s s1 →
    event_handler_ s1 = None ∧ call_state_ s1 = None ∧
    length (heap s1) = length (heap s) ∧
    calls_started s1 = calls_started s ∧ timers_armed s1 = timers_armed s ∧
    (retry_timer_callback_pending_ s1 = true → retry_timer_callback_pending_ s = true))
    as Hquiet.
  { intros s1 Hs. pose proof (call_step_calls_started _ _ Hs).
    pose proof (call_step_timers_armed _ _ Hs).
    destruct Hs as [_ -> -> _ -> -> _]. done. }
  destruct ev as [|error|self|self|self m|self error|self md error|self c|self];
    simpl in Hrun.
  - injection Hrun as <-.
    destruct (Orphan_fields s) as (_ & -> & -> & _ & -> & -> & -> & ->). done.
  - rewrite OnRetryTimer_eq in Hrun. cbn zeta in Hrun. simpl in Hrun.
    rewrite Hh in Hrun. rewrite bool_decide_false in Hrun by (by intros []).
    simpl in Hrun. injection Hrun as <-. simpl.
    unfold calls_started, timers_armed. count_log. done.
  - injection Hrun as <-. apply Hquiet. unfold OnComplete. auto with call_step.
  - injection Hrun as <-. apply Hquiet. unfold RecvInitialMetadataReady.
    auto with call_step.
  - injection Hrun as <-. apply Hquiet.
    eapply call_step_trans; [apply call_step_update_call|apply call_step_RecvMessageReady].
  - injection Hrun as <-. apply Hquiet. apply call_step_OnByteStreamNext.
  - set (s1 := update_call self (set_recv_trailing_metadata_ md) s) in *.
    rewrite RecvTrailingMetadataReady_eq in Hrun by (simpl; rewrite Hc; by intros []).
    injection Hrun as <-.
    destruct (call_end_reported_fields self error s1)
      as (_ & F2 & F3 & _ & F5 & F6 & F7 & F8 & _).
    assert (call_state_ (call_end_reported self error s1) ≠ Some self) as Hna.
    { rewrite F3. simpl. by rewrite Hc. }
    destruct (attempt_ended_quiet self
                (bool_decide (get_call_status (recv_trailing_metadata_ (call_at self s1)) error
                              ≠ GRPC_STATUS_UNIMPLEMENTED))
                (call_end_reported self error s1) (or_intror Hna))
      as (_ & -> & -> & _ & -> & -> & -> & ->).
    rewrite bool_decide_false by done.
    rewrite F2, F3, F5, F6, F7, F8. simpl. rewrite length_alter.
    unfold calls_started, timers_armed. subst s1. simpl. repeat split; done.
  - destruct c; injection Hrun as <-; apply Hquiet.
    + unfold StartCancel. auto with call_step.
    + unfold RunStartBatchInCallCombiner. auto with call_step.
  - injection Hrun as <-. apply Hquiet. unfold OnCancelComplete. auto with call_step.
Qed.

(** Any sequence of events. *)
Lemma orphaned_exec evs : ∀ s,
  invariant s → event_handler_ s = None →
  ∃ s', exec evs s = Ok s' ∧ invariant s' ∧
    event_handler_ s' = None ∧ call_state_ s' = None ∧
    length (heap s') = length (heap s) ∧
    calls_started s' = calls_started s ∧ timers_armed s' = timers_armed s ∧
    (retry_timer_callback_pending_ s' = true → retry_timer_callback_pending_ s = true).
Proof.
  induction evs as [|ev evs IH]; intros s I Hh; simpl.
  - exists s. do 3 (split; [done|]). split; [|repeat split; done].
    destruct (call_state_ s) eqn:E; [|done].
    destruct (inv_handler s I) as [h Hh']; [by rewrite E|]. congruence.
  - destruct (enabled ev s); [|by apply IH].
    destruct (orphaned_run ev s I Hh) as (s1 & -> & I1 & Hh1 & _ & E1 & E2 & E3 & E4).
    simpl. destruct (IH s1 I1 Hh1) as (s' & -> & I' & Hh' & Hc' & E1' & E2' & E3' & E4').
    exists s'. do 4 (split; [done|]). repeat split; try congruence. auto.
Qed.

Lemma reachable_exec evs : ∀ s s', reachable s → exec evs s = Ok s' → reachable s'.
Proof.
  induction evs as [|ev evs IH]; intros s s' R; simpl.
  - by intros [= <-].
  - destruct (enabled ev s) eqn:E; [|by apply IH].
    destruct (run ev s) as [s1| |] eqn:Hrun; simpl; try done.
    apply IH. by eapply reachable_run.
Qed.

(** The example states are states of a running controller. *)
Lemma watching_reachable : reachable watching.
Proof. by apply (reachable_new subchannel_up (Some rejects_empty)). Qed.

Lemma backing_off_reachable : reachable backing_off.
Proof. by apply (reachable_new subchannel_down (Some rejects_empty)). Qed.

(** ** One attempt or one timer *)

(** C6.  In every state a controller can reach, an active CallState and a
    pending retry timer exclude each other.  The slot holds at most one
    CallState, and it can only be the one created last, with the handler
    still there: a CallState that was superseded is never active again.
    Every entry point runs to its end from such a state: the assertion of
    [StartCallLocked] that no call is active, which is what a start during
    an active attempt would violate, never fails. *)
Theorem active_call_excludes_retry_timer (s : SubchannelStreamClient) :
  reachable s →
  ¬ (is_Some (call_state_ s) ∧ retry_timer_callback_pending_ s = true) ∧
  (∀ self, call_state_ s = Some self →
     length (heap s) = S self ∧ is_Some (event_handler_ s)) ∧
  (∀ ev, ∃ s', run ev s = Ok s' ∧ (enabled ev s = true → reachable s')) ∧
  (∀ fuel, (call_depth ≤ fuel)%nat → is_Some (call_state_ s) →
     StartCallLocked fuel s = AssertFailed).
Proof.
  intros R. pose proof (reachable_invariant s R) as I.
  split; [|split; [|split]].
  - intros [Hc Hp]. rewrite (inv_exclusive s I Hc) in Hp. done.
  - intros self Hs. split; [by apply I|]. apply I. by rewrite Hs.
  - intros ev. destruct (run_invariant ev s I) as (s' & E & _). exists s'.
    split; [done|]. intros He. by apply (reachable_run s ev).
  - intros fuel [f ->]%enough_fuel Hc. rewrite StartCallLocked_eq.
    destruct (inv_handler s I Hc) as [h ->]. by destruct Hc as [c ->].
Qed.

Lemma active_call_excludes_retry_timer_witness :
  ¬ (is_Some (call_state_ watching) ∧ retry_timer_callback_pending_ watching = true) ∧
  ¬ (is_Some (call_state_ backing_off) ∧ retry_timer_callback_pending_ backing_off = true).
Proof.
  split.
  - apply (active_call_excludes_retry_timer watching).
    apply watching_reachable.
  - apply (active_call_excludes_retry_timer backing_off).
    apply backing_off_reachable.
Defined.

(** A CallState that finds the handler gone when it is started reports its
    end with retry requested; it is no longer the active one, so the report
    only drops the call's reference. *)
Lemma CallState_StartCallLocked_orphaned fuel self s :
  event_handler_ s = None → call_state_ s = None →
  CallState_StartCallLocked (S (S fuel)) self s
  = Ok (emit (EvCallUnref self call_ended)
          (emit (EvCreate self (create_error (connected_subchannel_ s) self)) s)).
Proof.
  intros Hh Hc. rewrite CallState_StartCallLocked_eq. cbn zeta.
  replace (event_handler_ (emit _ s)) with (event_handler_ s) by done.
  rewrite Hh, (bool_decide_true (None = None)), orb_true_r by done.
  apply CallEndedLocked_not_active. simpl. by rewrite Hc.
Qed.

(** C7.  Once the handler of a controller is gone, whatever events follow
    (the retry timer firing, with or without cancellation; completions of
    attempts still in flight; a second shutdown), each of them runs to its
    end, the handler stays gone, no CallState is created, no attempt is
    started and no retry timer is armed.  A CallState started in such a
    state reports a creation failure with retry requested, and that report
    starts nothing and arms nothing either. *)
Theorem orphaned_never_restarts (s : SubchannelStreamClient) (evs : list Event) :
  reachable s → event_handler_ s = None →
  ∃ s', exec evs s = Ok s' ∧ reachable s' ∧
    event_handler_ s' = None ∧ call_state_ s' = None ∧
    length (heap s') = length (heap s) ∧
    calls_started s' = calls_started s ∧
    timers_armed s' = timers_armed s ∧
    (retry_timer_callback_pending_ s' = true → retry_timer_callback_pending_ s = true) ∧
    (∀ fuel, StartCallLocked (S fuel) s' = Ok s') ∧
    (∀ fuel self,
       CallState_StartCallLocked (S (S fuel)) self s'
       = Ok (emit (EvCallUnref self call_ended)
               (emit (EvCreate self (create_error (connected_subchannel_ s') self)) s'))).
Proof.
  intros R Hh.
  destruct (orphaned_exec evs s (reachable_invariant s R) Hh)
    as (s' & E & _ & Hh' & Hc' & H).
  exists s'. split; [done|]. split; [by eapply reachable_exec|].
  do 2 (split; [done|]). destruct H as (? & ? & ? & ?). do 4 (split; [done|]).
  split.
  - intros fuel. by apply StartCallLocked_orphaned.
  - intros fuel self. by apply CallState_StartCallLocked_orphaned.
Qed.

Lemma orphaned_never_restarts_witness :
  ∃ s', exec [TimerFires GRPC_ERROR_CANCELLED; TimerFires GRPC_ERROR_NONE;
              TrailingMetadataArrives 0
                {| GrpcStatusMetadata := Some GRPC_STATUS_CANCELLED |} GRPC_ERROR_NONE]
             (Orphan backing_off) = Ok s' ∧
    calls_started s' = calls_started (Orphan backing_off) ∧
    timers_armed s' = timers_armed (Orphan backing_off).
Proof.
  destruct (orphaned_never_restarts (Orphan backing_off)
    [TimerFires GRPC_ERROR_CANCELLED; TimerFires GRPC_ERROR_NONE;
     TrailingMetadataArrives 0
       {| GrpcStatusMetadata := Some GRPC_STATUS_CANCELLED |} GRPC_ERROR_NONE])
    as (s' & E & _ & _ & _ & _ & H1 & H2 & _).
  - apply (reachable_run backing_off OwnerOrphans); [|done..].
    apply backing_off_reachable.
  - done.
  - by exists s'.
Defined.

(** ** Shutdown *)

Lemma call_state_reset_idle s : call_state_ s = None → call_state_reset s = s.
Proof. intros H. rewrite call_state_reset_eq. by rewrite H. Qed.

(** A second [Orphan] finds nothing to release: it only cancels the timer
    again, if its callback has not run yet, and drops one more reference. *)
Lemma Orphan_Orphan s :
  Orphan (Orphan s) =
  emit (EvUnref orphan)
    (if retry_timer_callback_pending_ s then emit EvTimerCancel (Orphan s) else Orphan s).
Proof.
  destruct (Orphan_fields s) as (_ & Hh & Hc & _ & Hp & _).
  unfold Orphan at 1. cbn zeta.
  assert (∀ s', event_handler_ s' = None → set_event_handler_ None s' = s') as Hset.
  { intros s'. destruct s'; simpl. by intros ->. }
  rewrite Hset by done.
  rewrite call_state_reset_idle by done. by rewrite Hp.
Qed.

(** C8, as amended.  Shutdown from any state, whether an attempt is
    active, a retry timer is pending or neither, releases the handler and
    the active CallState, and after it no attempt is started and no timer is
    armed, whatever events follow.  A second invocation changes no field of
    the controller and starts nothing, but it is not without effect: it
    drops one more reference of the controller, and cancels the retry timer
    again when the cancelled timer's callback has not run yet. *)
Theorem Orphan_converges (s : SubchannelStreamClient) (evs : list Event) :
  event_handler_ (Orphan s) = None ∧
  call_state_ (Orphan s) = None ∧
  calls_started (Orphan s) = calls_started s ∧
  timers_armed (Orphan s) = timers_armed s ∧
  (∃ s', exec evs (Orphan s) = Ok s' ∧
     event_handler_ s' = None ∧ call_state_ s' = None ∧
     calls_started s' = calls_started s ∧ timers_armed s' = timers_armed s) ∧
  Orphan (Orphan s) =
    emit (EvUnref orphan)
      (if retry_timer_callback_pending_ s then emit EvTimerCancel (Orphan s) else Orphan s).
Proof.
  destruct (Orphan_fields s) as (_ & Hh & Hc & _ & _ & _ & Hcs & Hta).
  do 4 (split; [done|]). split; [|apply Orphan_Orphan].
  assert (invariant (Orphan s)) as I by (by apply invariant_idle).
  destruct (orphaned_exec evs (Orphan s) I Hh) as (s' & E & _ & Hh' & Hc' & _ & E1 & E2 & _).
  exists s'. rewrite E1, E2. done.
Qed.

(** C8, as stated, fails: the second shutdown of a watching controller
    drops a second reference, and that of a controller waiting for its
    retry timer also cancels the timer a second time. *)
Lemma Orphan_twice_is_not_Orphan_once :
  Orphan (Orphan watching) ≠ Orphan watching ∧
  occurrences is_orphan_unref (log (Orphan watching)) = 1%nat ∧
  occurrences is_orphan_unref (log (Orphan (Orphan watching))) = 2%nat ∧
  log (Orphan (Orphan backing_off))
  = EvUnref orphan :: EvTimerCancel :: log (Orphan backing_off).
Proof.
  split; [|by vm_compute].
  intros H. apply (f_equal (λ s, length (log s))) in H. vm_compute in H. done.
Qed.

(** ** The retry timer callback *)

(** The timer of a controller that was shut down while waiting fires as
    cancelled: the callback clears the flag and drops its reference. *)
Example retry_timer_after_shutdown :
  retry_timer_callback_pending_ (Orphan backing_off) = true ∧
  OnRetryTimer GRPC_ERROR_CANCELLED (Orphan backing_off)
  = Ok (emit (EvUnref health_retry_timer)
          (set_retry_timer_callback_pending_ false (Orphan backing_off))).
Proof. done. Qed.

(** C9.  [OnRetryTimer] clears [retry_timer_callback_pending_] before
    anything else: its result does not depend on the flag, and the flag is
    set when it returns only if a new timer was armed during the callback
    (the call it started could not be created).  It starts a call exactly
    when the handler is present, the timer fired without error and no call
    is active; otherwise it only clears the flag.  On every path it ends by
    dropping the timer's reference, once; arming the timer had taken it,
    once. *)
Theorem OnRetryTimer_spec (error : grpc_error_handle) (s : SubchannelStreamClient) :
  let start := bool_decide (event_handler_ s ≠ None)
               && bool_decide (error = GRPC_ERROR_NONE)
               && bool_decide (call_state_ s = None) in
  ∃ s', OnRetryTimer error s = Ok s' ∧
    (∀ pending, OnRetryTimer error (set_retry_timer_callback_pending_ pending s) = Ok s') ∧
    calls_started s' = (if start then S (calls_started s) else calls_started s) ∧
    (if start && bool_decide (create_error (connected_subchannel_ s) (length (heap s)) ≠ None)
     then retry_timer_callback_pending_ s' = true ∧ timers_armed s' = S (timers_armed s)
     else retry_timer_callback_pending_ s' = false ∧ timers_armed s' = timers_armed s) ∧
    (start = false →
     s' = emit (EvUnref health_retry_timer) (set_retry_timer_callback_pending_ false s)) ∧
    head (log s') = Some (EvUnref health_retry_timer) ∧
    occurrences is_timer_unref (log s') = S (occurrences is_timer_unref (log s)) ∧
    occurrences is_timer_ref (log (StartRetryTimerLocked s))
    = S (occurrences is_timer_ref (log s)).
Proof.
  intros start. rewrite OnRetryTimer_eq. cbn zeta.
  eexists. split; [done|]. split; [intros pending; by rewrite OnRetryTimer_eq|].
  change (event_handler_ (set_retry_timer_callback_pending_ false s))
    with (event_handler_ s).
  change (call_state_ (set_retry_timer_callback_pending_ false s))
    with (call_state_ s).
  fold start.
  destruct (StartRetryTimerLocked_fields s) as (_ & _ & _ & _ & _ & _ & _ & _ & Href & _).
  destruct start eqn:E.
  - destruct (attempt_started_fields (set_retry_timer_callback_pending_ false s))
      as (_ & _ & _ & A4 & A5 & _ & A6).
    unfold calls_started, timers_armed in *. count_log. simpl in *.
    rewrite A4, A5. do 1 (split; [done|]).
    split; [|done].
    destruct (create_error _ _).
    + rewrite bool_decide_true by done. by destruct A6 as (_ & _ & -> & ->).
    + rewrite bool_decide_false by (intros H; by apply H).
      by destruct A6 as (_ & _ & -> & ->).
  - unfold calls_started, timers_armed. count_log. simpl. done.
Qed.

(** * Further properties *)

(** ** What every operation preserves *)

Lemma call_at_update_call_ne self id f s :
  id ≠ self → call_at id (update_call self f s) = call_at id s.
Proof.
  intros H. unfold call_at, update_call. simpl.
  by rewrite list_lookup_alter_ne.
Qed.

Lemma call_at_update_call_eq self f s :
  call_at self (update_call self f s)
  = match heap s !! self with Some cs => f cs | None => CallState_new end.
Proof.
  unfold call_at, update_call. simpl.
  rewrite list_lookup_alter, decide_True by done. by destruct (heap s !! self).
Qed.

Lemma progress_refl s : progress s s.
Proof. by split. Qed.

Lemma progress_trans s1 s2 s3 : progress s1 s2 → progress s2 s3 → progress s1 s3.
Proof.
  intros [A1 A2 A3 A4 A5 A6 A7] [B1 B2 B3 B4 B5 B6 B7]. split; auto.
  - intros H. rewrite B2 by auto. auto.
  - intros id. specialize (A5 id). specialize (B5 id). lia.
  - intros id. specialize (A6 id). specialize (B6 id). lia.
Qed.

(** Logging an effect that is no call into the handler and no part of a
    cancel operation. *)
Lemma progress_emit e s :
  is_handler_call e = false →
  (∀ id, is_cancel_start_of id e = false) → (∀ id, is_cancel_ref_of id e = false) →
  progress s (emit e s).
Proof.
  intros H1 H2 H3. split; try done.
  - intros _. unfold handler_calls. simpl. by rewrite occurrences_cons, H1.
  - intros id. unfold cancels_scheduled. simpl. by rewrite occurrences_cons, H2.
  - intros id. unfold cancel_refs. simpl. by rewrite occurrences_cons, H3.
Qed.

(** Logging a call into a handler that is there. *)
Lemma progress_emit_handler e s :
  is_Some (event_handler_ s) →
  (∀ id, is_cancel_start_of id e = false) → (∀ id, is_cancel_ref_of id e = false) →
  progress s (emit e s).
Proof.
  intros [h Hh] H2 H3. split; try done; try (rewrite Hh; done).
  - intros id. unfold cancels_scheduled. simpl. by rewrite occurrences_cons, H2.
  - intros id. unfold cancel_refs. simpl. by rewrite occurrences_cons, H3.
Qed.

(** Writing a field of a CallState other than its two flags. *)
Lemma progress_update_call self f s :
  (∀ cs, cancelled_ (f cs) = cancelled_ cs) →
  (∀ cs, seen_response_ cs = true → seen_response_ (f cs) = true) →
  (∀ cs, (∃ slices, recv_message_buffer_ cs = pulled slices) →
         ∃ slices, recv_message_buffer_ (f cs) = pulled slices) →
  progress s (update_call self f s).
Proof.
  intros Hc Hs Hb.
  assert (∀ id, cancelled_ (call_at id (update_call self f s)) = cancelled_ (call_at id s))
    as Ec.
  { intros id. destruct (decide (id = self)) as [->|Hne].
    - rewrite call_at_update_call_eq. unfold call_at.
      destruct (heap s !! self); simpl; auto.
    - by rewrite call_at_update_call_ne. }
  split; try done.
  - intros id. by rewrite Ec.
  - intros id. destruct (decide (id = self)) as [->|Hne].
    + rewrite call_at_update_call_eq. unfold call_at.
      destruct (heap s !! self); simpl; auto.
    + by rewrite call_at_update_call_ne.
  - intros id. rewrite Ec. done.
  - intros id. rewrite Ec. done.
  - intros id. destruct (decide (id = self)) as [->|Hne].
    + rewrite call_at_update_call_eq. unfold call_at.
      destruct (heap s !! self); simpl; auto.
    + by rewrite call_at_update_call_ne.
Qed.

(** [Cancel] on a CallState that exists. *)
Lemma progress_Cancel self s :
  is_Some (heap s !! self) → progress s (Cancel self s).
Proof.
  intros [cs H]. rewrite Cancel_eq, (call_at_lookup _ _ _ H).
  destruct (cancelled_ cs) eqn:E; [apply progress_refl|].
  set (s1 := update_call self (set_cancelled_ true) s).
  assert (∀ id, id ≠ self → call_at id s1 = call_at id s) as Hne.
  { intros id Hid. by apply call_at_update_call_ne. }
  assert (call_at self s1 = set_cancelled_ true cs) as Heq.
  { subst s1. by rewrite call_at_update_call_eq, H. }
  split.
  - done.
  - intros _. unfold handler_calls. simpl. by rewrite !occurrences_cons.
  - intros id. simpl. rewrite !call_at_emit.
    destruct (decide (id = self)) as [->|Hid]; [by rewrite Heq|by rewrite Hne].
  - intros id. simpl. rewrite !call_at_emit.
    destruct (decide (id = self)) as [->|Hid]; [|by rewrite Hne].
    rewrite Heq, (call_at_lookup _ _ _ H). done.
  - intros id. unfold cancels_scheduled. simpl. rewrite !occurrences_cons. simpl.
    rewrite !call_at_emit.
    destruct (decide (id = self)) as [->|Hid].
    + rewrite bool_decide_true by done.
      rewrite Heq, (call_at_lookup _ _ _ H), E. simpl. lia.
    + rewrite bool_decide_false by done. by rewrite Hne.
  - intros id. unfold cancel_refs. simpl. rewrite !occurrences_cons. simpl.
    rewrite !call_at_emit.
    destruct (decide (id = self)) as [->|Hid].
    + rewrite bool_decide_true by done.
      rewrite Heq, (call_at_lookup _ _ _ H), E. simpl. lia.
    + rewrite bool_decide_false by done. by rewrite Hne.
  - intros id. simpl. rewrite !call_at_emit.
    destruct (decide (id = self)) as [->|Hid]; [|by rewrite Hne].
    by rewrite Heq, (call_at_lookup _ _ _ H).
Qed.

(** Writes to the controller's own fields, and allocating a CallState. *)
Lemma progress_controller s s' :
  (event_handler_ s = None → event_handler_ s' = None) →
  log s' = log s →
  (∀ id, call_at id s' = call_at id s) →
  progress s s'.
Proof.
  intros Hh Hl Hc. split; try done; intros; rewrite ?Hc; try done.
  - unfold handler_calls. by rewrite Hl.
  - unfold cancels_scheduled. by rewrite Hl.
  - unfold cancel_refs. by rewrite Hl.
Qed.

Lemma call_at_allocate id s :
  call_at id (set_heap (heap s ++ [CallState_new]) s) = call_at id s.
Proof.
  unfold call_at. simpl.
  destruct (decide (id < length (heap s))%nat) as [Hlt|Hge].
  - by rewrite lookup_app_l.
  - rewrite (lookup_ge_None_2 (heap s)) by lia.
    destruct (decide (id = length (heap s))) as [->|Hne].
    + by rewrite list_lookup_middle.
    + rewrite lookup_ge_None_2; [done|]. rewrite length_app. simpl. lia.
Qed.

Ltac solve_buffer :=
  let cs := fresh "cs" in let slices := fresh "slices" in let H := fresh "H" in
  intros cs [slices H]; simpl;
  first [ by exists slices
        | by exists []
        | eexists; rewrite H; apply pulled_snoc ].

Ltac solve_allocated :=
  apply lookup_lt_is_Some; simpl; rewrite ?length_alter;
  by apply lookup_lt_is_Some.

(** One step of a chain of logged effects and field writes. *)
Ltac peel :=
  lazymatch goal with
  | |- progress ?s ?s => apply progress_refl
  | |- progress _ (emit _ _) =>
      eapply progress_trans;
      [|apply progress_emit; [reflexivity|intros ?; reflexivity|intros ?; reflexivity]]
  | |- progress _ (update_call _ _ _) =>
      eapply progress_trans;
      [|apply progress_update_call; [by intros []|by intros []|solve_buffer]]
  | |- progress _ (Cancel _ _) =>
      eapply progress_trans; [|apply progress_Cancel; solve_allocated]
  | |- progress _ (StartBatch _ _ _) => unfold StartBatch
  | |- progress _ (set_retry_timer_callback_pending_ _ ?x) =>
      apply (progress_trans _ x); [|by apply progress_controller]
  | |- progress _ (set_retry_backoff_ _ ?x) =>
      apply (progress_trans _ x); [|by apply progress_controller]
  | |- progress _ (set_call_state_ _ ?x) =>
      apply (progress_trans _ x); [|by apply progress_controller]
  | |- progress _ (set_heap (_ ++ [CallState_new]) ?x) =>
      apply (progress_trans _ x);
      [|apply progress_controller;
        [done|done|intros ?; apply (call_at_allocate _ x)]]
  end.

Lemma progress_DoneReadingRecvMessage self error s :
  is_Some (heap s !! self) → progress s (DoneReadingRecvMessage self error s).
Proof.
  intros Halloc. unfold DoneReadingRecvMessage. destruct error as [e|].
  - repeat peel.
  - cbn zeta. simpl event_handler_.
    destruct (event_handler_ s) as [h|] eqn:Hh; [|repeat peel].
    destruct (ok _); repeat peel;
      (eapply progress_trans; [|apply progress_emit_handler;
        [simpl; rewrite Hh; eauto|intros ?; reflexivity|intros ?; reflexivity]]);
      repeat peel.
Qed.

Lemma progress_PullSliceFromRecvMessage self s :
  progress s (PullSliceFromRecvMessage self s).2.
Proof.
  unfold PullSliceFromRecvMessage.
  destruct (recv_message_ _); [|apply progress_refl].
  destruct (ByteStream_Pull _) as [[e|slice] bs]; simpl; repeat peel.
Qed.

Lemma allocated_call_step self s s' :
  call_step s s' → is_Some (heap s !! self) → is_Some (heap s' !! self).
Proof.
  intros [_ _ _ _ _ Hl _] H. apply lookup_lt_is_Some. rewrite Hl.
  by apply lookup_lt_is_Some.
Qed.

Lemma progress_ContinueReadingRecvMessage_loop n self : ∀ s,
  is_Some (heap s !! self) → progress s (ContinueReadingRecvMessage_loop n self s).
Proof.
  induction n as [|n IH]; intros s Halloc; cbn [ContinueReadingRecvMessage_loop];
    [apply progress_refl|].
  destruct (recv_message_ _); [|apply progress_refl].
  destruct (ByteStream_Next _); [|apply progress_refl].
  pose proof (progress_PullSliceFromRecvMessage self s) as Hp.
  pose proof (allocated_call_step self _ _
                (call_step_PullSliceFromRecvMessage self s) Halloc) as Ha.
  destruct (PullSliceFromRecvMessage self s) as [[e|] s1]; simpl in Hp, Ha.
  - eapply progress_trans; [done|by apply progress_DoneReadingRecvMessage].
  - destruct (message_complete self s1).
    + eapply progress_trans; [done|by apply progress_DoneReadingRecvMessage].
    + eapply progress_trans; [done|by apply IH].
Qed.

Lemma progress_ContinueReadingRecvMessage self s :
  is_Some (heap s !! self) → progress s (ContinueReadingRecvMessage self s).
Proof.
  intros Halloc. unfold ContinueReadingRecvMessage.
  destruct (recv_message_ _); [|apply progress_refl].
  by apply progress_ContinueReadingRecvMessage_loop.
Qed.

Lemma progress_OnByteStreamNext self error s :
  is_Some (heap s !! self) → progress s (OnByteStreamNext self error s).
Proof.
  intros Halloc. unfold OnByteStreamNext. destruct error.
  { by apply progress_DoneReadingRecvMessage. }
  pose proof (progress_PullSliceFromRecvMessage self s) as Hp.
  pose proof (allocated_call_step self _ _
                (call_step_PullSliceFromRecvMessage self s) Halloc) as Ha.
  destruct (PullSliceFromRecvMessage self s) as [[e|] s1]; simpl in Hp, Ha.
  - eapply progress_trans; [done|by apply progress_DoneReadingRecvMessage].
  - destruct (message_complete self s1).
    + eapply progress_trans; [done|by apply progress_DoneReadingRecvMessage].
    + eapply progress_trans; [done|by apply progress_ContinueReadingRecvMessage].
Qed.

Lemma progress_RecvMessageReady self s :
  is_Some (heap s !! self) → progress s (RecvMessageReady self s).
Proof.
  intros Halloc. unfold RecvMessageReady. cbn zeta.
  destruct (recv_message_ _); [|repeat peel].
  eapply progress_trans; [|apply progress_ContinueReadingRecvMessage; solve_allocated].
  repeat peel.
Qed.

Lemma progress_call_state_reset s :
  (∀ self, call_state_ s = Some self → is_Some (heap s !! self)) →
  progress s (call_state_reset s).
Proof.
  intros Halloc. rewrite call_state_reset_eq.
  destruct (call_state_ s) as [old|] eqn:E; [|apply progress_refl].
  specialize (Halloc old eq_refl).
  repeat peel.
Qed.

Lemma progress_StartRetryTimerLocked s : progress s (StartRetryTimerLocked s).
Proof.
  with_strategy transparent [StartRetryTimerLocked] unfold StartRetryTimerLocked.
  cbn zeta. unfold BackOff_NextAttemptTime. simpl.
  repeat peel.
  destruct (event_handler_ s) as [h|] eqn:Hh; [|apply progress_refl].
  apply progress_emit_handler; [by rewrite Hh|done..].
Qed.

Ltac peel_handler :=
  lazymatch goal with
  | |- progress _ (emit _ _) =>
      eapply progress_trans;
      [|apply progress_emit_handler;
        [simpl; eauto|intros ?; reflexivity|intros ?; reflexivity]]
  end.

Lemma progress_attempt_started s :
  is_Some (event_handler_ s) → progress s (attempt_started s).
Proof.
  intros Hh. unfold attempt_started. cbn zeta.
  assert (progress s (attempt_created s)) as Hc.
  { unfold attempt_created. cbn zeta. repeat peel. peel_handler. apply progress_refl. }
  destruct (create_error _ _) as [e|].
  - peel.
    apply (progress_trans _ (call_state_reset
             (emit (EvCreate (length (heap s)) (Some e)) (attempt_created s))));
      [|apply progress_StartRetryTimerLocked].
    eapply progress_trans; [|apply progress_call_state_reset].
    + peel. exact Hc.
    + intros self. simpl. intros [= <-]. apply lookup_lt_is_Some.
      rewrite length_app. simpl. lia.
  - repeat peel. do 2 peel_handler. repeat peel. exact Hc.
Qed.

Lemma progress_attempt_ended self retry s :
  invariant s → progress s (attempt_ended self retry s).
Proof.
  intros I. unfold attempt_ended. peel.
  case_bool_decide as Hact; [|apply progress_refl]. cbn zeta.
  assert (progress s (call_state_reset s)) as Hr.
  { apply progress_call_state_reset. intros c Hc. apply lookup_lt_is_Some.
    rewrite (inv_newest s I c Hc). lia. }
  destruct (call_state_reset_fields s) as (_ & R2 & _).
  destruct retry; [|done].
  destruct (seen_response_ _).
  - eapply progress_trans; [|apply progress_attempt_started].
    + peel. exact Hr.
    + simpl. rewrite R2. apply I. by rewrite Hact.
  - eapply progress_trans; [exact Hr|apply progress_StartRetryTimerLocked].
Qed.

Lemma progress_call_end_reported self error s :
  progress s (call_end_reported self error s).
Proof.
  unfold call_end_reported. cbn zeta. simpl event_handler_.
  destruct (event_handler_ s) as [h|] eqn:Hh; [|repeat peel].
  eapply progress_trans; [|apply progress_emit_handler;
    [simpl; rewrite Hh; eauto|intros ?; reflexivity|intros ?; reflexivity]].
  repeat peel.
Qed.

Lemma invariant_call_end_reported self error s :
  invariant s → invariant (call_end_reported self error s).
Proof.
  intros I.
  destruct (call_end_reported_fields self error s) as (_ & ? & ? & _ & ? & ? & _).
  by eapply (invariant_same s).
Qed.

Lemma progress_Orphan s : invariant s → progress s (Orphan s).
Proof.
  intros I. unfold Orphan. cbn zeta. peel.
  assert (progress s (call_state_reset (set_event_handler_ None s))) as Hr.
  { eapply progress_trans; [|apply progress_call_state_reset].
    - by apply progress_controller.
    - intros c Hc. simpl in *. apply lookup_lt_is_Some.
      rewrite (inv_newest s I c Hc). lia. }
  destruct (retry_timer_callback_pending_ _); [|exact Hr].
  peel. exact Hr.
Qed.

(** Every entry point, run from a state that satisfies the invariant. *)
Lemma run_progress ev s s' :
  invariant s → enabled ev s = true → run ev s = Ok s' → progress s s'.
Proof.
  intros I He Hrun.
  destruct ev as [|error|self|self|self m|self error|self md error|self c|self];
    simpl in Hrun, He.
  - injection Hrun as <-. by apply progress_Orphan.
  - rewrite OnRetryTimer_eq in Hrun. cbn zeta in Hrun. injection Hrun as <-.
    peel.
    destruct (bool_decide (event_handler_ _ ≠ None)) eqn:E1; simpl;
      [|by apply progress_controller].
    destruct (bool_decide (error = _)); simpl; [|by apply progress_controller].
    destruct (bool_decide (call_state_ _ = None)); simpl; [|by apply progress_controller].
    eapply progress_trans; [|apply progress_attempt_started].
    + by apply progress_controller.
    + apply bool_decide_eq_true_1 in E1. simpl in *. by destruct (event_handler_ s).
  - injection Hrun as <-. unfold OnComplete. repeat peel.
  - injection Hrun as <-. unfold RecvInitialMetadataReady. repeat peel.
  - injection Hrun as <-. apply bool_decide_eq_true_1 in He.
    eapply progress_trans; [|apply progress_RecvMessageReady; solve_allocated].
    repeat peel.
  - injection Hrun as <-. apply andb_prop in He as [He _].
    apply bool_decide_eq_true_1 in He. by apply progress_OnByteStreamNext.
  - set (s1 := update_call self (set_recv_trailing_metadata_ md) s) in *.
    assert (invariant s1) as I1.
    { eapply invariant_call_step; [apply call_step_update_call|done]. }
    rewrite RecvTrailingMetadataReady_eq in Hrun by apply I1.
    injection Hrun as <-.
    eapply progress_trans;
      [|apply progress_attempt_ended; by apply invariant_call_end_reported].
    eapply progress_trans; [|apply progress_call_end_reported].
    subst s1. repeat peel.
  - destruct c; injection Hrun as <-.
    + unfold StartCancel. repeat peel.
    + unfold RunStartBatchInCallCombiner. repeat peel.
  - injection Hrun as <-. unfold OnCancelComplete.
    eapply progress_trans; [|apply progress_emit; [done|done|]].
    + repeat peel.
    + intros id. simpl. done.
Qed.

Lemma exec_progress evs : ∀ s s',
  invariant s → exec evs s = Ok s' → progress s s' ∧ invariant s'.
Proof.
  induction evs as [|ev evs IH]; intros s s' I; simpl.
  - intros [= <-]. split; [apply progress_refl|done].
  - destruct (enabled ev s) eqn:He; [|by apply IH].
    destruct (run_invariant ev s I) as (s1 & Hrun & I1). rewrite Hrun. simpl.
    intros Hexec. destruct (IH s1 s' I1 Hexec) as [Hp I'].
    split; [|done]. eapply progress_trans; [|exact Hp]. by eapply run_progress.
Qed.

Lemma new_progress connected_subchannel event_handler s :
  SubchannelStreamClient_new connected_subchannel event_handler = Ok s →
  progress (member_initializers connected_subchannel event_handler) s.
Proof.
  unfold SubchannelStreamClient_new, StartCall, call_depth.
  destruct event_handler as [h|].
  - rewrite StartCallLocked_started by (simpl; eauto).
    intros [= <-]. apply progress_attempt_started. simpl. eauto.
  - rewrite StartCallLocked_orphaned by done.
    intros [= <-]. apply progress_refl.
Qed.

Lemma reachable_progress s :
  reachable s →
  ∃ connected_subchannel event_handler,
    progress (member_initializers connected_subchannel event_handler) s.
Proof.
  induction 1 as [sub h s Hnew|s ev s' R (sub & h & IH) He Hrun].
  - exists sub, h. by apply new_progress.
  - exists sub, h. eapply progress_trans; [exact IH|].
    eapply run_progress; [|done..]. by apply reachable_invariant.
Qed.

Lemma reachable_after evs s : reachable s → reachable (after evs s).
Proof.
  intros R. unfold after. destruct (exec evs s) eqn:E; try done.
  by eapply reachable_exec.
Qed.

(** ** Cancellation *)

(** X1.  In every reachable state, the cancel operation of a CallState has
    been scheduled on its combiner exactly once if the CallState is
    cancelled and never if it is not, and the same holds for the reference
    taken for it: however often [Cancel] is reached (shutdown, the end of
    the attempt, a rejected message, a failed read), the compare-exchange
    on [cancelled_] lets only the first one through. *)
Theorem cancel_scheduled_once (s : SubchannelStreamClient) (id : nat) :
  reachable s →
  cancels_scheduled id s = Nat.b2n (cancelled_ (call_at id s)) ∧
  cancel_refs id s = Nat.b2n (cancelled_ (call_at id s)).
Proof.
  intros R. destruct (reachable_progress s R) as (sub & h & P).
  pose proof (progress_cancels _ _ P id) as H1.
  pose proof (progress_cancel_refs _ _ P id) as H2.
  unfold cancels_scheduled, cancel_refs in *.
  change (log (member_initializers sub h)) with (@nil Effect) in *.
  replace (call_at id (member_initializers sub h)) with CallState_new in *.
  2:{ unfold call_at. by destruct id. }
  change (occurrences (is_cancel_start_of id) []) with 0%nat in H1.
  change (occurrences (is_cancel_ref_of id) []) with 0%nat in H2.
  simpl in H1, H2. lia.
Qed.

Lemma cancel_scheduled_once_witness :
  cancels_scheduled 0 second_attempt = 1%nat ∧ cancels_scheduled 1 second_attempt = 0%nat.
Proof.
  assert (reachable second_attempt) as R by (apply reachable_after, watching_reachable).
  split.
  - rewrite (proj1 (cancel_scheduled_once second_attempt 0 R)). reflexivity.
  - rewrite (proj1 (cancel_scheduled_once second_attempt 1 R)). reflexivity.
Defined.

Lemma reset_cancels_active s old :
  call_state_ s = Some old → is_Some (heap s !! old) →
  cancelled_ (call_at old (call_state_reset s)) = true.
Proof.
  intros Hc [cs H]. rewrite call_state_reset_eq, Hc.
  assert (heap (emit (EvCombinerCancel old) (set_call_state_ None s)) !! old = Some cs)
    as H1 by done.
  by rewrite (call_at_lookup _ _ _ (lookup_Cancel old _ cs H1)).
Qed.

Lemma all_cancelled_progress s s' :
  progress s s' → length (heap s') = length (heap s) →
  all_cancelled s → all_cancelled s'.
Proof.
  intros P Hl A id Hid. apply (progress_cancelled _ _ P). apply A. lia.
Qed.

Lemma superseded_of_all_cancelled s : all_cancelled s → superseded_cancelled s.
Proof. intros A id Hid _. by apply A. Qed.

Lemma all_cancelled_reset s :
  (∀ c, call_state_ s = Some c → is_Some (heap s !! c)) →
  superseded_cancelled s → all_cancelled (call_state_reset s).
Proof.
  intros I S id Hid.
  destruct (call_state_reset_fields s) as (_ & _ & _ & _ & _ & Hl).
  rewrite Hl in Hid.
  destruct (decide (call_state_ s = Some id)) as [Hact|Hact].
  - apply reset_cancels_active; [done|]. by apply lookup_lt_is_Some.
  - apply (progress_cancelled s); [by apply progress_call_state_reset|by apply S].
Qed.

Lemma invariant_allocated s c :
  invariant s → call_state_ s = Some c → is_Some (heap s !! c).
Proof.
  intros I Hc. apply lookup_lt_is_Some. rewrite (inv_newest s I c Hc). lia.
Qed.

Lemma superseded_attempt_started s :
  is_Some (event_handler_ s) → all_cancelled s →
  superseded_cancelled (attempt_started s).
Proof.
  intros Hh A id Hid Hact.
  destruct (attempt_started_fields s) as (_ & _ & Hl & _ & _ & _ & Hcreate).
  rewrite Hl in Hid.
  destruct (decide (id = length (heap s))) as [->|Hne].
  - unfold attempt_started in *. cbn zeta in *.
    destruct (create_error _ _) as [e|].
    + rewrite call_at_emit.
      apply (progress_cancelled _ _ (progress_StartRetryTimerLocked _)).
      apply reset_cancels_active; [done|].
      apply lookup_lt_is_Some. simpl. rewrite length_app. simpl. lia.
    + destruct Hcreate as (Hc & _). by rewrite Hc in Hact.
  - apply (progress_cancelled _ _ (progress_attempt_started s Hh)). apply A. lia.
Qed.

Lemma superseded_attempt_ended self retry s :
  invariant s → superseded_cancelled s →
  superseded_cancelled (attempt_ended self retry s).
Proof.
  intros I S. unfold attempt_ended.
  assert (∀ s0, superseded_cancelled s0 →
                superseded_cancelled (emit (EvCallUnref self call_ended) s0)) as Hemit.
  { intros s0 S0 id Hid Hact. rewrite call_at_emit. by apply S0. }
  apply Hemit. case_bool_decide as Hact; [|done]. cbn zeta.
  pose proof (all_cancelled_reset s (λ c, invariant_allocated s c I) S) as A.
  destruct (call_state_reset_fields s) as (_ & R2 & _).
  destruct retry; [|by apply superseded_of_all_cancelled].
  destruct (seen_response_ _).
  - apply superseded_attempt_started.
    + simpl. rewrite R2. apply I. by rewrite Hact.
    + done.
  - apply superseded_of_all_cancelled.
    eapply all_cancelled_progress; [apply progress_StartRetryTimerLocked| |done].
    by destruct (StartRetryTimerLocked_fields (call_state_reset s))
      as (_ & _ & _ & _ & _ & -> & _).
Qed.

Lemma superseded_same s s' :
  progress s s' → call_state_ s' = call_state_ s →
  length (heap s') = length (heap s) →
  superseded_cancelled s → superseded_cancelled s'.
Proof.
  intros P Hc Hl S id Hid Hact. apply (progress_cancelled _ _ P).
  apply S; [lia|congruence].
Qed.

Lemma run_superseded ev s s' :
  invariant s → enabled ev s = true → run ev s = Ok s' →
  superseded_cancelled s → superseded_cancelled s'.
Proof.
  intros I He Hrun S.
  pose proof (run_progress ev s s' I He Hrun) as P.
  assert (call_step s s' → superseded_cancelled s') as Hcall.
  { intros [_ _ Hc _ _ Hl _]. by apply (superseded_same s). }
  destruct ev as [|error|self|self|self m|self error|self md error|self c|self];
    simpl in Hrun.
  - injection Hrun as <-. apply superseded_of_all_cancelled.
    intros id Hid.
    destruct (Orphan_fields s) as (_ & _ & _ & _ & _ & Hl' & _). rewrite Hl' in Hid.
    assert (cancelled_ (call_at id (call_state_reset (set_event_handler_ None s))) = true)
      as Hc.
    { apply all_cancelled_reset.
      - intros c Hc. by apply (invariant_allocated s).
      - intros id' Hid' Hact'. by apply S.
      - destruct (call_state_reset_fields (set_event_handler_ None s))
          as (_ & _ & _ & _ & _ & ->). done. }
    unfold Orphan. cbn zeta.
    destruct (retry_timer_callback_pending_ _); by rewrite ?call_at_emit.
  - rewrite OnRetryTimer_eq in Hrun. cbn zeta in Hrun. injection Hrun as <-.
    assert (superseded_cancelled (set_retry_timer_callback_pending_ false s)) as S0.
    { intros id Hid Hact. by apply S. }
    intros id Hid Hact. rewrite call_at_emit. simpl in Hid, Hact.
    destruct (bool_decide (event_handler_ _ ≠ None)) eqn:E1; simpl in *;
      [|by apply S0].
    destruct (bool_decide (error = _)); simpl in *; [|by apply S0].
    destruct (bool_decide (call_state_ _ = None)) eqn:E3; simpl in *; [|by apply S0].
    apply bool_decide_eq_true_1 in E1, E3.
    apply superseded_attempt_started; try done.
    + simpl. by destruct (event_handler_ s).
    + intros id' Hid'. apply S0; [done|]. simpl. by rewrite E3.
  - injection Hrun as <-. apply Hcall. unfold OnComplete. auto with call_step.
  - injection Hrun as <-. apply Hcall. unfold RecvInitialMetadataReady.
    auto with call_step.
  - injection Hrun as <-. apply Hcall.
    eapply call_step_trans; [apply call_step_update_call|apply call_step_RecvMessageReady].
  - injection Hrun as <-. apply Hcall. apply call_step_OnByteStreamNext.
  - set (s1 := update_call self (set_recv_trailing_metadata_ md) s) in *.
    assert (invariant s1) as I1.
    { eapply invariant_call_step; [apply call_step_update_call|done]. }
    assert (superseded_cancelled s1) as S1.
    { apply (superseded_same s); try done.
      - subst s1. repeat peel.
      - subst s1. simpl. apply length_alter. }
    rewrite RecvTrailingMetadataReady_eq in Hrun by apply I1.
    injection Hrun as <-.
    apply superseded_attempt_ended; [by apply invariant_call_end_reported|].
    destruct (call_end_reported_fields self error s1) as (_ & _ & ? & _ & _ & ? & _).
    apply (superseded_same s1); try done. apply progress_call_end_reported.
  - destruct c; injection Hrun as <-; apply Hcall.
    + unfold StartCancel. auto with call_step.
    + unfold RunStartBatchInCallCombiner. auto with call_step.
  - injection Hrun as <-. apply Hcall. unfold OnCancelComplete. auto with call_step.
Qed.

(** X2.  In every reachable state, every CallState other than the active
    one has been cancelled: the controller never lets go of an attempt
    (shutdown, end of the attempt, failed creation) without cancelling its
    call.  Together with X1, exactly one cancel operation has been
    scheduled for each of them. *)
Theorem superseded_attempts_are_cancelled (s : SubchannelStreamClient) (id : nat) :
  reachable s →
  (id < length (heap s))%nat → call_state_ s ≠ Some id →
  cancelled_ (call_at id s) = true ∧ cancels_scheduled id s = 1%nat.
Proof.
  intros R Hid Hact.
  assert (superseded_cancelled s) as S.
  { clear id Hid Hact.
    induction R as [sub h s Hnew|s ev s' R IH He Hrun].
    - revert Hnew. unfold SubchannelStreamClient_new, StartCall, call_depth.
      destruct h as [h|].
      + rewrite StartCallLocked_started by (simpl; eauto).
        intros [= <-]. apply superseded_attempt_started; [simpl; eauto|].
        intros id Hid. simpl in Hid. lia.
      + rewrite StartCallLocked_orphaned by done.
        intros [= <-] id Hid. simpl in Hid. lia.
    - eapply run_superseded; [|done..]. by apply reachable_invariant. }
  pose proof (S id Hid Hact) as Hc. split; [done|].
  destruct (reachable_progress s R) as (sub & h & P).
  pose proof (progress_cancels _ _ P id) as H1.
  unfold cancels_scheduled in *.
  change (log (member_initializers sub h)) with (@nil Effect) in *.
  replace (call_at id (member_initializers sub h)) with CallState_new in *.
  2:{ unfold call_at. by destruct id. }
  change (occurrences (is_cancel_start_of id) []) with 0%nat in H1.
  rewrite Hc in H1. simpl in H1. lia.
Qed.

Lemma superseded_attempts_are_cancelled_witness :
  cancelled_ (call_at 0 second_attempt) = true ∧
  cancels_scheduled 0 second_attempt = 1%nat.
Proof.
  apply (superseded_attempts_are_cancelled second_attempt 0).
  - apply reachable_after, watching_reachable.
  - vm_compute. lia.
  - vm_compute. discriminate.
Defined.

(** X3.  Whatever events follow a reachable state, [cancelled_] and
    [seen_response_] of a CallState, once set, stay set: nothing stores
    false into either flag. *)
Theorem flags_are_never_cleared (s s' : SubchannelStreamClient) (evs : list Event)
    (id : nat) :
  reachable s → exec evs s = Ok s' →
  (cancelled_ (call_at id s) = true → cancelled_ (call_at id s') = true) ∧
  (seen_response_ (call_at id s) = true → seen_response_ (call_at id s') = true).
Proof.
  intros R Hexec.
  destruct (exec_progress evs s s' (reachable_invariant s R) Hexec) as [P _].
  split; [apply (progress_cancelled _ _ P)|apply (progress_seen_response _ _ P)].
Qed.

Lemma flags_are_never_cleared_witness :
  seen_response_ (call_at 0 second_attempt) = true.
Proof.
  apply (flags_are_never_cleared watching_seen second_attempt
           [TrailingMetadataArrives 0
              {| GrpcStatusMetadata := Some GRPC_STATUS_UNAVAILABLE |} GRPC_ERROR_NONE] 0).
  - apply (reachable_run watching
             (MessageArrives 0 (Some (message_of [[Byte.x01; Byte.x02]; [Byte.x03]]))));
      [apply watching_reachable|done..].
  - vm_compute. reflexivity.
  - done.
Defined.

(** ** The handler after shutdown *)

(** X4.  Once the handler is gone, no method of it is called again: from a
    reachable state without handler, every sequence of events runs to its
    end and makes no call into the handler (no call-start or timer-start
    notification, no path or request encoding, no message, no terminal
    status). *)
Theorem handler_is_not_called_after_release (s : SubchannelStreamClient)
    (evs : list Event) :
  reachable s → event_handler_ s = None →
  ∃ s', exec evs s = Ok s' ∧ event_handler_ s' = None ∧
        handler_calls s' = handler_calls s.
Proof.
  intros R Hh. pose proof (reachable_invariant s R) as I.
  destruct (orphaned_exec evs s I Hh) as (s' & Hexec & _).
  exists s'. split; [done|].
  destruct (exec_progress evs s s' I Hexec) as [P _].
  split; [by apply (progress_handler _ _ P)|by apply (progress_silent _ _ P)].
Qed.

Lemma handler_is_not_called_after_release_witness :
  ∃ s', exec [MessageArrives 0 (Some (message_of [[Byte.x01]]));
              TrailingMetadataArrives 0
                {| GrpcStatusMetadata := Some GRPC_STATUS_CANCELLED |} GRPC_ERROR_NONE;
              TimerFires GRPC_ERROR_NONE]
             (Orphan watching) = Ok s' ∧
        handler_calls s' = handler_calls (Orphan watching).
Proof.
  destruct (handler_is_not_called_after_release (Orphan watching)
    [MessageArrives 0 (Some (message_of [[Byte.x01]]));
     TrailingMetadataArrives 0
       {| GrpcStatusMetadata := Some GRPC_STATUS_CANCELLED |} GRPC_ERROR_NONE;
     TimerFires GRPC_ERROR_NONE]) as (s' & E & _ & H).
  - apply (reachable_run watching OwnerOrphans); [apply watching_reachable|done..].
  - done.
  - by exists s'.
Defined.

(** ** Reading a message chunk by chunk *)

Lemma chunked_eq chunks :
  chunked chunks = {| bs_length := length (concat (snd <$> chunks));
                      bs_chunks := slice_chunk <$> chunks |}.
Proof. reflexivity. Qed.

(** No chunk is announced to a CallState that is not reading. *)
Lemma exec_chunks_idle self error k s :
  recv_message_ (call_at self s) = None →
  exec (replicate k (ChunkArrives self error)) s = Ok s.
Proof.
  intros H. induction k as [|k IH]; [done|]. simpl.
  rewrite H. simpl. rewrite andb_false_r. exact IH.
Qed.

(** The end of the read of a message whose slices are all in the buffer. *)
Lemma DoneReadingRecvMessage_delivers self s cs h slices :
  heap s !! self = Some cs → event_handler_ s = Some h →
  recv_message_buffer_ cs = pulled slices →
  let s' := DoneReadingRecvMessage self GRPC_ERROR_NONE s in
  delivered_messages (log s') = concat slices :: delivered_messages (log s) ∧
  seen_response_ (call_at self s') = true ∧
  recv_message_ (call_at self s') = None ∧
  call_step s s'.
Proof.
  intros H Hh Hbuf. cbv zeta.
  destruct (DoneReadingRecvMessage_read self s cs H) as [H1 L].
  cbv zeta in H1, L.
  rewrite (call_at_lookup _ _ _ H1).
  split; [|split; [done|split; [done|apply call_step_DoneReadingRecvMessage]]].
  rewrite L, Hh, Hbuf, serialized_message_pulled. by destruct (negb _ && _).
Qed.

(** What pulling the next chunk, a slice, leaves behind. *)
Lemma PullSliceFromRecvMessage_chunk self s cs total c rest slices :
  heap s !! self = Some cs →
  recv_message_ cs = Some {| bs_length := total; bs_chunks := slice_chunk <$> c :: rest |} →
  recv_message_buffer_ cs = pulled slices →
  ∃ s1 cs1,
    PullSliceFromRecvMessage self s = (GRPC_ERROR_NONE, s1) ∧
    heap s1 !! self = Some cs1 ∧
    recv_message_ cs1 = Some {| bs_length := total; bs_chunks := slice_chunk <$> rest |} ∧
    recv_message_buffer_ cs1 = pulled (slices ++ [c.2]) ∧
    log s1 = log s ∧ event_handler_ s1 = event_handler_ s ∧ call_step s s1.
Proof.
  intros H Hbs Hbuf.
  destruct (PullSliceFromRecvMessage_slice self s cs _ (slice_chunk c)
              (fmap (M:=list) slice_chunk rest) c.2 H Hbs eq_refl eq_refl)
    as (E1 & H1 & L1 & Hh1).
  pose proof (call_step_PullSliceFromRecvMessage self s) as Hstep.
  destruct (PullSliceFromRecvMessage self s) as [err s1]. simpl in *. subst err.
  eexists s1, _. split; [done|]. split; [exact H1|].
  simpl. rewrite Hbuf, pulled_snoc. done.
Qed.

Lemma message_complete_eq self s cs total chunks slices :
  heap s !! self = Some cs →
  recv_message_ cs = Some {| bs_length := total; bs_chunks := chunks |} →
  recv_message_buffer_ cs = pulled slices →
  message_complete self s = bool_decide (length (concat slices) = total).
Proof.
  intros H Hbs Hbuf. unfold message_complete.
  rewrite (call_at_lookup _ _ _ H), Hbs, Hbuf. simpl.
  by destruct (pulled_fields slices) as (_ & _ & ->).
Qed.

Lemma awaited_cons c chunks :
  awaited (c :: chunks) = if c.1 then awaited chunks else S (awaited chunks).
Proof. unfold awaited. simpl. by destruct c.1. Qed.

Lemma concat_complete (pre : list grpc_slice) (c : grpc_slice) (rest : list grpc_slice) :
  length (concat (pre ++ [c])) = length (concat (pre ++ c :: rest)) →
  concat (pre ++ c :: rest) = concat (pre ++ [c]).
Proof.
  intros H. rewrite !concat_app in *. simpl in *. rewrite app_nil_r in *.
  rewrite !length_app in H.
  assert (concat rest = []) as -> by (apply length_zero_iff_nil; lia).
  by rewrite app_nil_r.
Qed.

(** From a CallState that has pulled [pre] and still has [rest] to pull:
    the loop, followed by the announcements of the chunks waited for, ends
    with the whole message handed to the handler. *)
Lemma reading_delivers self h (rest : list (bool * grpc_slice)) :
  ∀ (pre : list grpc_slice) n k s cs,
  heap s !! self = Some cs → event_handler_ s = Some h →
  recv_message_ cs =
    Some {| bs_length := length (concat (pre ++ (snd <$> rest)));
            bs_chunks := slice_chunk <$> rest |} →
  recv_message_buffer_ cs = pulled pre →
  rest ≠ [] → (length rest ≤ n)%nat → (awaited rest ≤ k)%nat →
  ∃ s', exec (replicate k (ChunkArrives self GRPC_ERROR_NONE))
             (ContinueReadingRecvMessage_loop n self s) = Ok s' ∧
    delivered_messages (log s')
      = concat (pre ++ (snd <$> rest)) :: delivered_messages (log s) ∧
    seen_response_ (call_at self s') = true ∧
    recv_message_ (call_at self s') = None ∧
    call_step s s'.
Proof.
  induction rest as [|c rest IH]; intros pre n k s cs H Hh Hbs Hbuf Hne Hn Hk; [done|].
  destruct (PullSliceFromRecvMessage_chunk self s cs _ c rest pre H Hbs Hbuf)
    as (s1 & cs1 & Hpull & H1 & Hbs1 & Hbuf1 & L1 & Hh1 & Hstep1).
  pose proof (message_complete_eq self s1 cs1 _ _ _ H1 Hbs1 Hbuf1) as Hcomplete.
  rewrite Hh in Hh1.
  (* what happens once the chunk is pulled *)
  assert (∀ k' m, (length rest ≤ m)%nat → (awaited rest ≤ k')%nat →
    ∃ s', exec (replicate k' (ChunkArrives self GRPC_ERROR_NONE))
               (if message_complete self s1
                then DoneReadingRecvMessage self GRPC_ERROR_NONE s1
                else ContinueReadingRecvMessage_loop m self s1) = Ok s' ∧
      delivered_messages (log s')
        = concat (pre ++ (snd <$> c :: rest)) :: delivered_messages (log s) ∧
      seen_response_ (call_at self s') = true ∧
      recv_message_ (call_at self s') = None ∧
      call_step s s') as Hnext.
  { intros k' m Hm Hk'. rewrite Hcomplete. case_bool_decide as Hc.
    - destruct (DoneReadingRecvMessage_delivers self s1 cs1 h _ H1 Hh1 Hbuf1)
        as (D1 & D2 & D3 & D4).
      eexists. split; [by apply exec_chunks_idle|].
      rewrite D1, L1. change (snd <$> c :: rest) with (c.2 :: (snd <$> rest)).
      rewrite (concat_complete pre c.2 (snd <$> rest)) by done.
      split; [done|]. split; [done|]. split; [done|].
      by eapply call_step_trans.
    - assert (rest ≠ []) as Hne' by (intros ->; by apply Hc).
      destruct (IH (pre ++ [c.2]) m k' s1 cs1) as (s' & E & D & Hs & Hr & Hstep);
        try done.
      { rewrite Hbs1. do 2 f_equal. by rewrite <- app_assoc. }
      exists s'. split; [done|]. rewrite D, L1, <- app_assoc.
      split; [done|]. split; [done|]. split; [done|]. by eapply call_step_trans. }
  destruct c as [[|] slice].
  - (* the chunk is there *)
    destruct n as [|n]; [simpl in Hn; lia|].
    cbn [ContinueReadingRecvMessage_loop].
    rewrite (call_at_lookup _ _ _ H), Hbs.
    cbn [ByteStream_Next bs_chunks fmap list_fmap slice_chunk available fst].
    rewrite Hpull. unfold GRPC_ERROR_NONE at 1. cbv iota.
    apply Hnext; [simpl in Hn; lia|]. by rewrite awaited_cons in Hk.
  - (* the loop has to wait for the chunk *)
    rewrite awaited_cons in Hk. simpl in Hk. destruct k as [|k]; [lia|].
    assert (ContinueReadingRecvMessage_loop n self s = s) as ->.
    { destruct n as [|n]; [done|]. cbn [ContinueReadingRecvMessage_loop].
      by rewrite (call_at_lookup _ _ _ H), Hbs. }
    cbn [replicate exec enabled].
    rewrite (call_at_lookup _ _ _ H), Hbs, H.
    rewrite !bool_decide_true by eauto. cbn [andb run mbind Outcome_bind].
    unfold OnByteStreamNext. unfold GRPC_ERROR_NONE at 1. rewrite Hpull.
    unfold GRPC_ERROR_NONE at 1. cbv iota.
    unfold ContinueReadingRecvMessage. rewrite (call_at_lookup _ _ _ H1), Hbs1.
    cbn [bs_chunks]. apply Hnext; [by rewrite length_fmap|lia].
Qed.

Lemma exec_app evs1 evs2 : ∀ s, exec (evs1 ++ evs2) s = exec evs1 s ≫= exec evs2.
Proof.
  induction evs1 as [|ev evs1 IH]; intros s; simpl; [done|].
  destruct (enabled ev s); [|apply IH].
  destruct (run ev s); simpl; [apply IH|done..].
Qed.

(** X5.  A message is handed to the handler as the concatenation of its
    chunks whether the chunks are there when the read starts or are
    announced later one by one: the synchronous loop and the
    [OnByteStreamNext] callback assemble the same string, hand it over
    once, and set [seen_response_], without touching the controller. *)
Theorem chunked_message_is_delivered (self : nat) (s : SubchannelStreamClient)
    (h : CallEventHandler) (chunks : list (bool * grpc_slice)) (k : nat) :
  is_Some (heap s !! self) → event_handler_ s = Some h →
  chunks ≠ [] → (awaited chunks ≤ k)%nat →
  ∃ s', exec (MessageArrives self (Some (chunked chunks))
              :: replicate k (ChunkArrives self GRPC_ERROR_NONE)) s = Ok s' ∧
    delivered_messages (log s') = concat (snd <$> chunks) :: delivered_messages (log s) ∧
    seen_response_ (call_at self s') = true ∧
    recv_message_ (call_at self s') = None ∧
    call_step s s'.
Proof.
  intros [cs H] Hh Hne Hk. cbn [exec enabled]. rewrite H.
  rewrite bool_decide_true by eauto. cbn [run mbind Outcome_bind].
  unfold RecvMessageReady. cbn zeta.
  set (s0 := update_call self (set_recv_message_ (Some (chunked chunks))) s).
  assert (heap s0 !! self = Some (set_recv_message_ (Some (chunked chunks)) cs)) as H0.
  { by apply lookup_update_call. }
  rewrite call_at_emit, (call_at_lookup _ _ _ H0). cbn [recv_message_ set_recv_message_].
  set (s1 := update_call self (set_recv_message_buffer_ SliceBuffer.init)
               (emit (EvCombinerStop self recv_message_ready) s0)).
  assert (heap s1 !! self
          = Some (set_recv_message_buffer_ SliceBuffer.init
                    (set_recv_message_ (Some (chunked chunks)) cs))) as H1.
  { subst s1. apply lookup_update_call. exact H0. }
  unfold ContinueReadingRecvMessage. rewrite (call_at_lookup _ _ _ H1).
  cbn [recv_message_ set_recv_message_ set_recv_message_buffer_].
  destruct (reading_delivers self h chunks [] (length (bs_chunks (chunked chunks))) k s1 _ H1)
    as (s' & E & D & Hs & Hr & Hstep); try done.
  { simpl. by rewrite length_fmap. }
  exists s'. split; [done|]. split; [done|]. split; [done|]. split; [done|].
  eapply call_step_trans; [|exact Hstep]. subst s1 s0. auto with call_step.
Qed.

Lemma chunked_message_is_delivered_witness :
  ∃ s', exec (MessageArrives 0
                (Some (chunked [(false, [Byte.x01]); (true, []); (false, [Byte.x02; Byte.x03])]))
              :: replicate 2 (ChunkArrives 0 GRPC_ERROR_NONE)) watching = Ok s' ∧
    delivered_messages (log s') = [[Byte.x01; Byte.x02; Byte.x03]].
Proof.
  destruct (chunked_message_is_delivered 0 watching rejects_empty
              [(false, [Byte.x01]); (true, []); (false, [Byte.x02; Byte.x03])] 2)
    as (s' & E & D & _); [by eexists|done|done|vm_compute; lia|].
  by exists s'.
Defined.

(** X6.  Messages are handed to the handler in the order in which they
    arrive, each exactly once and whole, whatever the handler answers: after
    a sequence of messages the handler has been given their concatenated
    chunks, the most recent first in the log. *)
Theorem messages_are_delivered_in_order (self : nat) (h : CallEventHandler)
    (messages : list (list (bool * grpc_slice))) :
  ∀ s, is_Some (heap s !! self) → event_handler_ s = Some h →
  Forall (λ chunks, chunks ≠ []) messages →
  ∃ s', exec (mjoin (message_events self <$> messages)) s = Ok s' ∧
    delivered_messages (log s')
      = reverse ((λ chunks, concat (snd <$> chunks)) <$> messages)
        ++ delivered_messages (log s) ∧
    call_step s s'.
Proof.
  induction messages as [|chunks messages IH]; intros s Halloc Hh Hne.
  - exists s. split; [done|]. split; [done|apply call_step_refl].
  - inversion Hne as [|? ? Hc Hrest]; subst.
    destruct (chunked_message_is_delivered self s h chunks (awaited chunks))
      as (s1 & E1 & D1 & _ & _ & Hstep1); try done.
    destruct (IH s1) as (s' & E & D & Hstep); try done.
    { by eapply allocated_call_step. }
    { by rewrite (call_step_handler _ _ Hstep1). }
    exists s'. split; [|split].
    + change (mjoin (message_events self <$> chunks :: messages))
        with (message_events self chunks ++ mjoin (message_events self <$> messages)).
      rewrite exec_app. change (exec (message_events self chunks) s = Ok s1) in E1.
      rewrite E1. exact E.
    + rewrite D, D1. cbn [fmap list_fmap]. rewrite reverse_cons, <- app_assoc. done.
    + by eapply call_step_trans.
Qed.

Lemma messages_are_delivered_in_order_witness :
  ∃ s', exec (mjoin (message_events 0 <$>
                [[(true, [Byte.x01])]; [(false, [Byte.x02]); (true, [Byte.x03])]]))
             watching = Ok s' ∧
    delivered_messages (log s') = [[Byte.x02; Byte.x03]; [Byte.x01]].
Proof.
  destruct (messages_are_delivered_in_order 0 rejects_empty
              [[(true, [Byte.x01])]; [(false, [Byte.x02]); (true, [Byte.x03])]] watching)
    as (s' & E & D & _); [by eexists|done|by repeat constructor|].
  by exists s'.
Defined.

(** ** Only whole messages are delivered *)

Lemma PullSliceFromRecvMessage_any self s cs bs slices :
  heap s !! self = Some cs → recv_message_ cs = Some bs →
  recv_message_buffer_ cs = pulled slices →
  ∃ cs1 bs1 slices1,
    heap (PullSliceFromRecvMessage self s).2 !! self = Some cs1 ∧
    log (PullSliceFromRecvMessage self s).2 = log s ∧
    recv_message_ cs1 = Some bs1 ∧ bs_length bs1 = bs_length bs ∧
    (length (bs_chunks bs1) < length (bs_chunks bs) ∨ bs_chunks bs = [])%nat ∧
    recv_message_buffer_ cs1 = pulled slices1.
Proof.
  intros H Hbs Hbuf. unfold PullSliceFromRecvMessage.
  rewrite (call_at_lookup _ _ _ H), Hbs. unfold ByteStream_Pull.
  destruct (bs_chunks bs) as [|c rest] eqn:Hc.
  - simpl. rewrite list_lookup_alter, decide_True by done. rewrite H. simpl.
    eexists _, bs, slices. rewrite Hc. repeat split; try done. by right.
  - destruct (pull c) as [e|slice]; simpl;
      rewrite ?list_lookup_alter, ?decide_True by done; rewrite H; simpl.
    + eexists _, _, slices. repeat split; try done. simpl. left. lia.
    + eexists _, _, (slices ++ [slice]). repeat split; try done.
      * simpl. left. lia.
      * simpl. rewrite Hbuf. apply pulled_snoc.
Qed.

Lemma DoneReadingRecvMessage_length self error s cs bs slices :
  heap s !! self = Some cs → recv_message_ cs = Some bs →
  recv_message_buffer_ cs = pulled slices →
  (error = GRPC_ERROR_NONE → message_complete self s = true) →
  delivered_at_most_one_of (bs_length bs) s (DoneReadingRecvMessage self error s).
Proof.
  intros H Hbs Hbuf Hcomplete. destruct error as [e|].
  - left. destruct (DoneReadingRecvMessage_failed self e s cs H) as [_ L].
    cbv zeta in L. by rewrite L.
  - specialize (Hcomplete eq_refl). unfold message_complete in Hcomplete.
    rewrite (call_at_lookup _ _ _ H), Hbs, Hbuf in Hcomplete.
    apply bool_decide_eq_true_1 in Hcomplete.
    destruct (DoneReadingRecvMessage_read self s cs H) as [_ L]. cbv zeta in L.
    unfold GRPC_ERROR_NONE in L. unfold delivered_at_most_one_of.
    rewrite L, Hbuf, serialized_message_pulled. clear L.
    destruct (event_handler_ s) as [h|].
    + right. exists (concat slices). split; [by destruct (negb _ && _)|].
      rewrite <- Hcomplete. by destruct (pulled_fields slices) as (_ & _ & ->).
    + left. done.
Qed.

Lemma delivered_at_most_one_of_log total s s1 s' :
  log s1 = log s → delivered_at_most_one_of total s1 s' →
  delivered_at_most_one_of total s s'.
Proof. unfold delivered_at_most_one_of. by intros ->. Qed.

Lemma ContinueReadingRecvMessage_loop_length self n : ∀ s cs bs slices,
  heap s !! self = Some cs → recv_message_ cs = Some bs →
  recv_message_buffer_ cs = pulled slices →
  delivered_at_most_one_of (bs_length bs) s (ContinueReadingRecvMessage_loop n self s).
Proof.
  induction n as [|n IH]; intros s cs bs slices H Hbs Hbuf;
    cbn [ContinueReadingRecvMessage_loop]; [by left|].
  rewrite (call_at_lookup _ _ _ H), Hbs.
  destruct (ByteStream_Next bs); [|by left].
  destruct (PullSliceFromRecvMessage_any self s cs bs slices H Hbs Hbuf)
    as (cs1 & bs1 & slices1 & H1 & L1 & Hbs1 & Hlen & _ & Hbuf1).
  destruct (PullSliceFromRecvMessage self s) as [[e|] s1]; simpl in H1, L1;
    apply (delivered_at_most_one_of_log _ s s1 _ L1); rewrite <- Hlen.
  - by eapply DoneReadingRecvMessage_length.
  - destruct (message_complete self s1) eqn:Hc.
    + by eapply DoneReadingRecvMessage_length.
    + by eapply IH.
Qed.

Lemma OnByteStreamNext_length self error s cs bs slices :
  heap s !! self = Some cs → recv_message_ cs = Some bs →
  recv_message_buffer_ cs = pulled slices →
  delivered_at_most_one_of (bs_length bs) s (OnByteStreamNext self error s).
Proof.
  intros H Hbs Hbuf. unfold OnByteStreamNext. destruct error as [e|].
  { by eapply DoneReadingRecvMessage_length. }
  destruct (PullSliceFromRecvMessage_any self s cs bs slices H Hbs Hbuf)
    as (cs1 & bs1 & slices1 & H1 & L1 & Hbs1 & Hlen & _ & Hbuf1).
  destruct (PullSliceFromRecvMessage self s) as [[e|] s1]; simpl in H1, L1;
    apply (delivered_at_most_one_of_log _ s s1 _ L1); rewrite <- Hlen.
  - by eapply DoneReadingRecvMessage_length.
  - destruct (message_complete self s1) eqn:Hc.
    + by eapply DoneReadingRecvMessage_length.
    + unfold ContinueReadingRecvMessage. rewrite (call_at_lookup _ _ _ H1), Hbs1.
      by eapply ContinueReadingRecvMessage_loop_length.
Qed.

(** X7.  The handler is only ever given whole messages: whatever stream
    the transport hands over (chunks of any size, available or not, pulls
    that fail, too few or too many bytes), an event that reads from it
    gives the handler at most one message, and that message has exactly
    the length the stream announced.  A read that ends in an error, or
    that has not reached the announced length, delivers nothing. *)
Theorem only_whole_messages_are_delivered (s : SubchannelStreamClient) (ev : Event)
    (bs : ByteStream) :
  reachable s → enabled ev s = true → stream_of ev s = Some bs →
  ∃ s', run ev s = Ok s' ∧ delivered_at_most_one_of (bs_length bs) s s'.
Proof.
  intros R He Hbs.
  destruct ev as [|error|self|self|self m|self error|self md error|self c|self];
    try done; simpl in Hbs, He; simpl.
  - subst m. apply bool_decide_eq_true_1 in He as [cs H].
    eexists. split; [done|].
    set (s0 := update_call self (set_recv_message_ (Some bs)) s).
    assert (heap s0 !! self = Some (set_recv_message_ (Some bs) cs)) as H0.
    { by apply lookup_update_call. }
    unfold RecvMessageReady. cbn zeta.
    rewrite call_at_emit, (call_at_lookup _ _ _ H0). cbn [recv_message_ set_recv_message_].
    set (s1 := update_call self (set_recv_message_buffer_ SliceBuffer.init)
                 (emit (EvCombinerStop self recv_message_ready) s0)).
    assert (heap s1 !! self
            = Some (set_recv_message_buffer_ SliceBuffer.init
                      (set_recv_message_ (Some bs) cs))) as H1.
    { subst s1. apply lookup_update_call. exact H0. }
    unfold ContinueReadingRecvMessage. rewrite (call_at_lookup _ _ _ H1).
    cbn [recv_message_ set_recv_message_ set_recv_message_buffer_].
    pose proof (ContinueReadingRecvMessage_loop_length self (length (bs_chunks bs)) s1 _ bs []
                  H1 eq_refl eq_refl) as [D|(m & D & Hm)].
    + left. rewrite D. done.
    + right. exists m. split; [|done]. rewrite D. done.
  - apply andb_prop in He as [He _]. apply bool_decide_eq_true_1 in He as [cs H].
    rewrite (call_at_lookup _ _ _ H) in Hbs.
    eexists. split; [done|].
    destruct (reachable_progress s R) as (sub & h & P).
    destruct (progress_buffer _ _ P self) as [slices Hbuf].
    { exists []. unfold call_at. by destruct self. }
    rewrite (call_at_lookup _ _ _ H) in Hbuf.
    by eapply OnByteStreamNext_length.
Qed.

Lemma only_whole_messages_are_delivered_witness :
  ∃ s', run (MessageArrives 0 (Some (message_of [[Byte.x01]; [Byte.x02; Byte.x03]])))
            watching = Ok s' ∧
        delivered_at_most_one_of
          (bs_length (message_of [[Byte.x01]; [Byte.x02; Byte.x03]])) watching s'.
Proof.
  apply (only_whole_messages_are_delivered watching
           (MessageArrives 0 (Some (message_of [[Byte.x01]; [Byte.x02; Byte.x03]])))
           (message_of [[Byte.x01]; [Byte.x02; Byte.x03]])).
  - apply watching_reachable.
  - done.
  - done.
Defined.

(** ** The controller's own effects of every operation *)

Lemma controller_effects_app l1 l2 :
  controller_effects (l1 ++ l2) = controller_effects l1 ++ controller_effects l2.
Proof. apply List.filter_app. Qed.

Lemma controller_effects_call_events es :
  forallb call_event es = true → controller_effects es = [].
Proof.
  induction es as [|e es IH]; [done|]. simpl. intros [He Hes]%andb_prop.
  rewrite He. simpl. auto.
Qed.

Lemma occurrences_controller p l :
  (∀ e, call_event e = true → p e = false) →
  occurrences p l = occurrences p (controller_effects l).
Proof.
  intros Hp. induction l as [|e l IH]; [done|].
  rewrite occurrences_cons. simpl. destruct (call_event e) eqn:E; simpl.
  - by rewrite (Hp e E).
  - by rewrite occurrences_cons, IH.
Qed.

Lemma call_step_trace s s' :
  call_step s s' → controller_effects (log s') = controller_effects (log s).
Proof.
  intros [_ _ _ _ _ _ (es & -> & F)].
  by rewrite controller_effects_app, controller_effects_call_events.
Qed.

Lemma call_state_reset_trace s :
  controller_effects (log (call_state_reset s)) = controller_effects (log s).
Proof. by rewrite (call_step_trace _ _ (call_step_call_state_reset s)). Qed.

Lemma StartRetryTimerLocked_trace s :
  controller_effects (log (StartRetryTimerLocked s)) =
  EvTimerInit (BackOff_NextAttemptTime (retry_backoff_ s)).1
  :: EvRef health_retry_timer
  :: (if event_handler_ s is Some _ then [EvOnRetryTimerStartLocked] else [])
  ++ controller_effects (log s).
Proof.
  with_strategy transparent [StartRetryTimerLocked] unfold StartRetryTimerLocked.
  destruct (event_handler_ s); simpl;
    by destruct (BackOff_NextAttemptTime (retry_backoff_ s)).
Qed.

Lemma attempt_started_trace s :
  controller_effects (log (attempt_started s)) =
  match create_error (connected_subchannel_ s) (length (heap s)) with
  | Some _ =>
      EvTimerInit (BackOff_NextAttemptTime (retry_backoff_ s)).1
      :: EvRef health_retry_timer
      :: (if event_handler_ s is Some _ then [EvOnRetryTimerStartLocked] else [])
  | None => [EvEncodeSendMessageLocked; EvGetPathLocked]
  end
  ++ EvCreate (length (heap s)) (create_error (connected_subchannel_ s) (length (heap s)))
  :: EvRef call_state_ref :: EvOnCallStartLocked :: controller_effects (log s).
Proof.
  unfold attempt_started. cbn zeta.
  destruct (create_error _ _) as [e|] eqn:E.
  - set (s1 := emit _ (attempt_created s)).
    destruct (call_state_reset_fields s1) as (_ & R2 & _ & R4 & _).
    cbn [log emit set_log]. cbn [controller_effects List.filter call_event negb].
    fold (controller_effects (log (StartRetryTimerLocked (call_state_reset s1)))).
    rewrite StartRetryTimerLocked_trace, call_state_reset_trace, R2, R4.
    subst s1. unfold attempt_created. simpl. done.
  - unfold attempt_created. simpl. done.
Qed.

Lemma call_end_reported_trace self error s :
  controller_effects (log (call_end_reported self error s)) =
  (if event_handler_ s is Some _
   then [EvRecvTrailingMetadataReadyLocked
           (get_call_status (recv_trailing_metadata_ (call_at self s)) error)]
   else [])
  ++ controller_effects (log s).
Proof. unfold call_end_reported. cbn zeta. simpl. by destruct (event_handler_ s). Qed.

Lemma Orphan_trace s :
  controller_effects (log (Orphan s)) =
  EvUnref orphan
  :: (if retry_timer_callback_pending_ s then [EvTimerCancel] else [])
  ++ controller_effects (log s).
Proof.
  unfold Orphan. cbn zeta.
  destruct (call_state_reset_fields (set_event_handler_ None s)) as (_ & _ & _ & _ & R5 & _).
  rewrite R5. simpl.
  destruct (retry_timer_callback_pending_ s); simpl;
    fold (controller_effects (log (call_state_reset (set_event_handler_ None s))));
    by rewrite call_state_reset_trace.
Qed.

(** ** Attempts and timers are accounted for *)

Lemma accounted_trace es s s' :
  controller_effects (log s') = es ++ controller_effects (log s) →
  length (heap s') = (occurrences is_call_start es + length (heap s))%nat →
  occurrences is_call_state_ref es = occurrences is_call_start es →
  occurrences is_create es = occurrences is_call_start es →
  occurrences is_timer_start_notification es = occurrences is_timer_init es →
  occurrences is_timer_ref es = occurrences is_timer_init es →
  accounted s → accounted s'.
Proof.
  intros T Hl H1 H2 H3 H4 [A1 A2 A3 A4 A5].
  unfold calls_started, timers_armed in *.
  rewrite (occurrences_controller is_call_start) in A1 by (by intros []).
  rewrite (occurrences_controller is_call_state_ref) in A2 by (by intros []).
  rewrite (occurrences_controller is_create) in A3 by (by intros []).
  rewrite (occurrences_controller is_timer_start_notification) in A4 by (by intros []).
  rewrite (occurrences_controller is_timer_ref) in A5 by (by intros []).
  rewrite (occurrences_controller is_timer_init) in A4, A5 by (by intros []).
  split; unfold calls_started, timers_armed;
    rewrite ?(occurrences_controller is_call_start (log s')),
            ?(occurrences_controller is_call_state_ref (log s')),
            ?(occurrences_controller is_create (log s')),
            ?(occurrences_controller is_timer_start_notification (log s')),
            ?(occurrences_controller is_timer_ref (log s')),
            ?(occurrences_controller is_timer_init (log s')) by (by intros []);
    rewrite T, !occurrences_app; lia.
Qed.

Lemma accounted_call_step s s' : call_step s s' → accounted s → accounted s'.
Proof.
  intros C. apply (accounted_trace []).
  - by rewrite (call_step_trace _ _ C).
  - by destruct C.
  - done.
  - done.
  - done.
  - done.
Qed.

Lemma accounted_call_state_reset s : accounted s → accounted (call_state_reset s).
Proof.
  intros A. apply (accounted_call_step (set_call_state_ None s));
    [apply call_step_call_state_reset|].
  destruct A. by split.
Qed.

Lemma accounted_StartRetryTimerLocked s :
  is_Some (event_handler_ s) → accounted s → accounted (StartRetryTimerLocked s).
Proof.
  intros [h Hh].
  apply (accounted_trace
           [EvTimerInit (BackOff_NextAttemptTime (retry_backoff_ s)).1;
            EvRef health_retry_timer; EvOnRetryTimerStartLocked]).
  - by rewrite StartRetryTimerLocked_trace, Hh.
  - destruct (StartRetryTimerLocked_fields s) as (_ & _ & _ & _ & _ & -> & _). done.
  - done.
  - done.
  - done.
  - done.
Qed.

Lemma accounted_attempt_started s :
  is_Some (event_handler_ s) → accounted s → accounted (attempt_started s).
Proof.
  intros [h Hh].
  apply (accounted_trace
           (match create_error (connected_subchannel_ s) (length (heap s)) with
            | Some _ =>
                [EvTimerInit (BackOff_NextAttemptTime (retry_backoff_ s)).1;
                 EvRef health_retry_timer; EvOnRetryTimerStartLocked]
            | None => [EvEncodeSendMessageLocked; EvGetPathLocked]
            end
            ++ [EvCreate (length (heap s))
                  (create_error (connected_subchannel_ s) (length (heap s)));
                EvRef call_state_ref; EvOnCallStartLocked])).
  - rewrite attempt_started_trace, Hh, <- app_assoc. done.
  - destruct (attempt_started_fields s) as (_ & _ & -> & _).
    by destruct (create_error _ _).
  - by destruct (create_error _ _).
  - by destruct (create_error _ _).
  - by destruct (create_error _ _).
  - by destruct (create_error _ _).
Qed.

Lemma accounted_attempt_ended self retry s :
  invariant s → accounted s → accounted (attempt_ended self retry s).
Proof.
  intros I A. unfold attempt_ended.
  eapply accounted_call_step; [by apply call_step_emit|].
  case_bool_decide as Hact; [|done]. cbn zeta.
  destruct (call_state_reset_fields s) as (R1 & R2 & R3 & R4 & R5 & R6).
  assert (is_Some (event_handler_ (call_state_reset s))) as Hh.
  { rewrite R2. apply I. by rewrite Hact. }
  pose proof (accounted_call_state_reset s A) as A'.
  destruct retry; [|done].
  destruct (seen_response_ _).
  - apply accounted_attempt_started; [done|]. destruct A'. by split.
  - by apply accounted_StartRetryTimerLocked.
Qed.

Lemma accounted_call_end_reported self error s :
  accounted s → accounted (call_end_reported self error s).
Proof.
  apply (accounted_trace
           (if event_handler_ s is Some _
            then [EvRecvTrailingMetadataReadyLocked
                    (get_call_status (recv_trailing_metadata_ (call_at self s)) error)]
            else [])).
  - apply call_end_reported_trace.
  - destruct (call_end_reported_fields self error s) as (_ & _ & _ & _ & _ & -> & _).
    by destruct (event_handler_ s).
  - by destruct (event_handler_ s).
  - by destruct (event_handler_ s).
  - by destruct (event_handler_ s).
  - by destruct (event_handler_ s).
Qed.

Lemma accounted_Orphan s : accounted s → accounted (Orphan s).
Proof.
  apply (accounted_trace
           (EvUnref orphan
            :: (if retry_timer_callback_pending_ s then [EvTimerCancel] else []))).
  - apply Orphan_trace.
  - destruct (Orphan_fields s) as (_ & _ & _ & _ & _ & -> & _).
    by destruct (retry_timer_callback_pending_ s).
  - by destruct (retry_timer_callback_pending_ s).
  - by destruct (retry_timer_callback_pending_ s).
  - by destruct (retry_timer_callback_pending_ s).
  - by destruct (retry_timer_callback_pending_ s).
Qed.

Lemma run_accounted ev s s' :
  invariant s → accounted s → run ev s = Ok s' → accounted s'.
Proof.
  intros I A Hrun.
  destruct ev as [|error|self|self|self m|self error|self md error|self c|self];
    simpl in Hrun.
  - injection Hrun as <-. by apply accounted_Orphan.
  - rewrite OnRetryTimer_eq in Hrun. cbn zeta in Hrun. injection Hrun as <-.
    assert (accounted (set_retry_timer_callback_pending_ false s)) as A0.
    { destruct A. by split. }
    apply (accounted_trace [EvUnref health_retry_timer]
             (if bool_decide (event_handler_ (set_retry_timer_callback_pending_ false s) ≠ None)
                 && bool_decide (error = GRPC_ERROR_NONE)
                 && bool_decide (call_state_ (set_retry_timer_callback_pending_ false s) = None)
              then attempt_started (set_retry_timer_callback_pending_ false s)
              else set_retry_timer_callback_pending_ false s)); try done.
    destruct (bool_decide (event_handler_ _ ≠ None)) eqn:E1; simpl; [|done].
    destruct (bool_decide (error = _)); simpl; [|done].
    destruct (bool_decide (call_state_ _ = None)); simpl; [|done].
    apply accounted_attempt_started; [|done].
    apply bool_decide_eq_true_1 in E1. simpl in *. by destruct (event_handler_ s).
  - injection Hrun as <-. eapply accounted_call_step; [|done].
    unfold OnComplete. auto with call_step.
  - injection Hrun as <-. eapply accounted_call_step; [|done].
    unfold RecvInitialMetadataReady. auto with call_step.
  - injection Hrun as <-. eapply accounted_call_step; [|done].
    eapply call_step_trans; [apply call_step_update_call|apply call_step_RecvMessageReady].
  - injection Hrun as <-. eapply accounted_call_step; [|done].
    apply call_step_OnByteStreamNext.
  - set (s1 := update_call self (set_recv_trailing_metadata_ md) s) in *.
    assert (invariant s1) as I1.
    { eapply invariant_call_step; [apply call_step_update_call|done]. }
    assert (accounted s1) as A1.
    { eapply accounted_call_step; [apply call_step_update_call|done]. }
    rewrite RecvTrailingMetadataReady_eq in Hrun by apply I1.
    injection Hrun as <-.
    apply accounted_attempt_ended; [|by apply accounted_call_end_reported].
    destruct (call_end_reported_fields self error s1) as (_ & ? & ? & _ & ? & ? & _).
    by eapply (invariant_same s1).
  - destruct c; injection Hrun as <-; (eapply accounted_call_step; [|done]).
    + unfold StartCancel. auto with call_step.
    + unfold RunStartBatchInCallCombiner. auto with call_step.
  - injection Hrun as <-. eapply accounted_call_step; [|done].
    unfold OnCancelComplete. auto with call_step.
Qed.

Lemma new_accounted connected_subchannel event_handler s :
  SubchannelStreamClient_new connected_subchannel event_handler = Ok s → accounted s.
Proof.
  unfold SubchannelStreamClient_new, StartCall, call_depth.
  destruct event_handler as [h|].
  - rewrite StartCallLocked_started by (simpl; eauto).
    intros [= <-]. apply accounted_attempt_started; [simpl; eauto|]. by split.
  - rewrite StartCallLocked_orphaned by done.
    intros [= <-]. by split.
Qed.

(** X8.  In every reachable state the attempts and the timers are
    accounted for: the handler was told [OnCallStartLocked] once per
    CallState allocated, each of them took one reference [call_state_ref]
    on the controller and made one call to the subchannel's [Create]; and
    for every [grpc_timer_init] one reference [health_retry_timer] was
    taken and the handler was told [OnRetryTimerStartLocked]: the null
    check in [StartRetryTimerLocked] never finds the handler gone. *)
Theorem attempts_and_timers_are_accounted (s : SubchannelStreamClient) :
  reachable s → accounted s.
Proof.
  induction 1 as [sub h s Hnew|s ev s' R IH _ Hrun].
  - by eapply new_accounted.
  - eapply run_accounted; [by apply reachable_invariant|exact IH|exact Hrun].
Qed.

Lemma attempts_and_timers_are_accounted_witness : accounted backing_off.
Proof.
  apply (attempts_and_timers_are_accounted backing_off). apply backing_off_reachable.
Defined.

(** ** The reference held for the retry timer *)

Lemma timer_balanced_trace es s s' :
  controller_effects (log s') = es ++ controller_effects (log s) →
  (occurrences is_timer_ref es + Nat.b2n (retry_timer_callback_pending_ s)
   = occurrences is_timer_unref es + Nat.b2n (retry_timer_callback_pending_ s'))%nat →
  timer_balanced s → timer_balanced s'.
Proof.
  unfold timer_balanced. intros T H B.
  rewrite (occurrences_controller is_timer_ref) in B |- * by (by intros []).
  rewrite (occurrences_controller is_timer_unref) in B |- * by (by intros []).
  rewrite T, !occurrences_app. lia.
Qed.

Lemma timer_balanced_call_step s s' : call_step s s' → timer_balanced s → timer_balanced s'.
Proof.
  intros C. apply (timer_balanced_trace []).
  - by rewrite (call_step_trace _ _ C).
  - destruct C as [_ _ _ _ -> _ _]. done.
Qed.

Lemma timer_balanced_call_state_reset s :
  timer_balanced s → timer_balanced (call_state_reset s).
Proof.
  intros B. by apply (timer_balanced_call_step (set_call_state_ None s));
    [apply call_step_call_state_reset|].
Qed.

Lemma timer_balanced_StartRetryTimerLocked s :
  retry_timer_callback_pending_ s = false →
  timer_balanced s → timer_balanced (StartRetryTimerLocked s).
Proof.
  intros Hp.
  apply (timer_balanced_trace
           (EvTimerInit (BackOff_NextAttemptTime (retry_backoff_ s)).1
            :: EvRef health_retry_timer
            :: (if event_handler_ s is Some _ then [EvOnRetryTimerStartLocked] else []))).
  - apply StartRetryTimerLocked_trace.
  - destruct (StartRetryTimerLocked_fields s) as (_ & _ & _ & _ & -> & _).
    rewrite Hp. by destruct (event_handler_ s).
Qed.

Lemma timer_balanced_attempt_started s :
  retry_timer_callback_pending_ s = false →
  timer_balanced s → timer_balanced (attempt_started s).
Proof.
  intros Hp.
  apply (timer_balanced_trace
           (match create_error (connected_subchannel_ s) (length (heap s)) with
            | Some _ =>
                EvTimerInit (BackOff_NextAttemptTime (retry_backoff_ s)).1
                :: EvRef health_retry_timer
                :: (if event_handler_ s is Some _ then [EvOnRetryTimerStartLocked] else [])
            | None => [EvEncodeSendMessageLocked; EvGetPathLocked]
            end
            ++ [EvCreate (length (heap s))
                  (create_error (connected_subchannel_ s) (length (heap s)));
                EvRef call_state_ref; EvOnCallStartLocked])).
  - rewrite attempt_started_trace, <- app_assoc. done.
  - destruct (attempt_started_fields s) as (_ & _ & _ & _ & _ & _ & H).
    rewrite Hp. destruct (create_error _ _).
    + destruct H as (_ & _ & -> & _). by destruct (event_handler_ s).
    + destruct H as (_ & _ & -> & _). by rewrite Hp.
Qed.

Lemma timer_balanced_attempt_ended self retry s :
  invariant s → timer_balanced s → timer_balanced (attempt_ended self retry s).
Proof.
  intros I B. unfold attempt_ended.
  eapply timer_balanced_call_step; [by apply call_step_emit|].
  case_bool_decide as Hact; [|done]. cbn zeta.
  destruct (call_state_reset_fields s) as (R1 & R2 & R3 & R4 & R5 & R6).
  assert (retry_timer_callback_pending_ (call_state_reset s) = false) as Hp.
  { rewrite R5. apply I. by rewrite Hact. }
  pose proof (timer_balanced_call_state_reset s B) as B'.
  destruct retry; [|done].
  destruct (seen_response_ _).
  - by apply timer_balanced_attempt_started.
  - by apply timer_balanced_StartRetryTimerLocked.
Qed.

Lemma timer_balanced_call_end_reported self error s :
  timer_balanced s → timer_balanced (call_end_reported self error s).
Proof.
  apply (timer_balanced_trace
           (if event_handler_ s is Some _
            then [EvRecvTrailingMetadataReadyLocked
                    (get_call_status (recv_trailing_metadata_ (call_at self s)) error)]
            else [])).
  - apply call_end_reported_trace.
  - destruct (call_end_reported_fields self error s) as (_ & _ & _ & _ & -> & _).
    by destruct (event_handler_ s).
Qed.

Lemma timer_balanced_Orphan s : timer_balanced s → timer_balanced (Orphan s).
Proof.
  apply (timer_balanced_trace
           (EvUnref orphan
            :: (if retry_timer_callback_pending_ s then [EvTimerCancel] else []))).
  - apply Orphan_trace.
  - destruct (Orphan_fields s) as (_ & _ & _ & _ & -> & _).
    by destruct (retry_timer_callback_pending_ s).
Qed.

Lemma run_timer_balanced ev s s' :
  invariant s → timely ev s = true → timer_balanced s → run ev s = Ok s' →
  timer_balanced s'.
Proof.
  intros I Ht B Hrun.
  destruct ev as [|error|self|self|self m|self error|self md error|self c|self];
    simpl in Hrun, Ht.
  - injection Hrun as <-. by apply timer_balanced_Orphan.
  - rewrite OnRetryTimer_eq in Hrun. cbn zeta in Hrun. injection Hrun as <-.
    set (s0 := set_retry_timer_callback_pending_ false s).
    match goal with |- timer_balanced (emit _ ?x) => set (s1 := x) end.
    assert (occurrences is_timer_ref (log s1)
            = occurrences is_timer_unref (log s1)
              + 1 + Nat.b2n (retry_timer_callback_pending_ s1))%nat as B1.
    { assert (occurrences is_timer_ref (log s0)
              = occurrences is_timer_unref (log s0) + 1 + 0)%nat as B0.
      { unfold timer_balanced in B. rewrite Ht in B. simpl in *. lia. }
      subst s1. destruct (_ && _ && _); [|done].
      rewrite (occurrences_controller is_timer_ref) in B0 |- * by (by intros []).
      rewrite (occurrences_controller is_timer_unref) in B0 |- * by (by intros []).
      rewrite attempt_started_trace, !occurrences_app.
      destruct (attempt_started_fields s0) as (_ & _ & _ & _ & _ & _ & H).
      change (?a :: ?b :: ?c :: controller_effects ?l)
        with ([a; b; c] ++ controller_effects l).
      rewrite !occurrences_app.
      destruct (create_error _ _).
      - destruct H as (_ & _ & -> & _).
        destruct (event_handler_ s0); simpl in *;
          change (occurrences is_timer_ref ?l) with (length (List.filter is_timer_ref l)) in *;
          change (occurrences is_timer_unref ?l) with (length (List.filter is_timer_unref l)) in *;
          simpl in *; lia.
      - destruct H as (_ & _ & -> & _). simpl in *.
        change (occurrences is_timer_ref ?l) with (length (List.filter is_timer_ref l)) in *;
        change (occurrences is_timer_unref ?l) with (length (List.filter is_timer_unref l)) in *;
        simpl in *; lia. }
    unfold timer_balanced. cbn [log emit set_log retry_timer_callback_pending_].
    rewrite !occurrences_cons. cbn [is_timer_ref is_timer_unref].
    destruct s1; simpl in *. lia.
  - injection Hrun as <-. eapply timer_balanced_call_step; [|done].
    unfold OnComplete. auto with call_step.
  - injection Hrun as <-. eapply timer_balanced_call_step; [|done].
    unfold RecvInitialMetadataReady. auto with call_step.
  - injection Hrun as <-. eapply timer_balanced_call_step; [|done].
    eapply call_step_trans; [apply call_step_update_call|apply call_step_RecvMessageReady].
  - injection Hrun as <-. eapply timer_balanced_call_step; [|done].
    apply call_step_OnByteStreamNext.
  - set (s1 := update_call self (set_recv_trailing_metadata_ md) s) in *.
    assert (invariant s1) as I1.
    { eapply invariant_call_step; [apply call_step_update_call|done]. }
    assert (timer_balanced s1) as B1.
    { eapply timer_balanced_call_step; [apply call_step_update_call|done]. }
    rewrite RecvTrailingMetadataReady_eq in Hrun by apply I1.
    injection Hrun as <-.
    apply timer_balanced_attempt_ended; [|by apply timer_balanced_call_end_reported].
    destruct (call_end_reported_fields self error s1) as (_ & ? & ? & _ & ? & ? & _).
    by eapply (invariant_same s1).
  - destruct c; injection Hrun as <-; (eapply timer_balanced_call_step; [|done]).
    + unfold StartCancel. auto with call_step.
    + unfold RunStartBatchInCallCombiner. auto with call_step.
  - injection Hrun as <-. eapply timer_balanced_call_step; [|done].
    unfold OnCancelComplete. auto with call_step.
Qed.

Lemma exec_timer_balanced evs : ∀ s s',
  invariant s → timer_balanced s → all_timely evs s = true → exec evs s = Ok s' →
  timer_balanced s'.
Proof.
  induction evs as [|ev evs IH]; intros s s' I B Ht Hexec; simpl in Ht, Hexec.
  - by injection Hexec as <-.
  - destruct (enabled ev s); [|by eapply IH].
    apply andb_prop in Ht as [Ht1 Ht2].
    destruct (run_invariant ev s I) as (s1 & Hrun & I1).
    rewrite Hrun in Ht2, Hexec. simpl in Hexec.
    apply (IH s1 s' I1); [|exact Ht2|exact Hexec].
    exact (run_timer_balanced ev s s1 I Ht1 B Hrun).
Qed.

Lemma new_timer_balanced connected_subchannel event_handler s :
  SubchannelStreamClient_new connected_subchannel event_handler = Ok s →
  timer_balanced s.
Proof.
  unfold SubchannelStreamClient_new, StartCall, call_depth.
  destruct event_handler as [h|].
  - rewrite StartCallLocked_started by (simpl; eauto).
    intros [= <-]. by apply timer_balanced_attempt_started.
  - rewrite StartCallLocked_orphaned by done.
    intros [= <-]. done.
Qed.

(** X9.  The reference held for the retry timer.  When the timer runs
    its callback once for every time it was armed (the callback only
    comes while one is pending), the references [health_retry_timer]
    taken exceed those released by exactly one while a callback is
    pending and by none otherwise, whatever else happens in between: the
    timer is never armed while a callback is still pending, and
    [OnRetryTimer] releases the reference on each of its paths, also when
    it arms the timer again. *)
Theorem retry_timer_reference_is_balanced (connected_subchannel : ConnectedSubchannel)
    (event_handler : option CallEventHandler) (evs : list Event)
    (s0 s : SubchannelStreamClient) :
  SubchannelStreamClient_new connected_subchannel event_handler = Ok s0 →
  all_timely evs s0 = true →
  exec evs s0 = Ok s →
  timer_balanced s.
Proof.
  intros Hnew Ht Hexec.
  eapply (exec_timer_balanced evs s0); try done.
  - by eapply new_invariant.
  - by eapply new_timer_balanced.
Qed.

Lemma retry_timer_reference_is_balanced_witness :
  timer_balanced
    (after [TimerFires GRPC_ERROR_NONE; OwnerOrphans;
            TimerFires (Some (ERROR_WITH_STATUS GRPC_STATUS_CANCELLED))] backing_off).
Proof.
  apply (retry_timer_reference_is_balanced subchannel_down (Some rejects_empty)
           [TimerFires GRPC_ERROR_NONE; OwnerOrphans;
            TimerFires (Some (ERROR_WITH_STATUS GRPC_STATUS_CANCELLED))]
           backing_off).
  - reflexivity.
  - vm_compute. reflexivity.
  - vm_compute. reflexivity.
Defined.
